(** * Calibration scripts of KH_20250717: E->F power Rabi and the CR
      correction-phase analysis layer

    The development embeds two source files:

    - [calibration_utils/cr_correction_phase/analysis.py]
      ([FitParameters], [fit_raw_data], [_extract_relevant_fit_parameters]),
      in [Module Analysis];
    - [calibrations/15b_Power_Rabi_E_to_F.py] (the amplitude sweep, the QUA
      program, its stream processing, the post-fit analysis and the state
      update), in [Module Qua] (the fragment of the QUA language the script
      emits, with an interpreter) and [Module PowerRabiEF].

    Numbers.  The amplitude sweep is computed in IEEE binary64 as numpy does
    ([Module Binary64]), and each of its points is kept as the rational it
    is.  I/Q samples and dataset entries are rationals ([Q]).  The post-fit
    analysis uses [np.pi], so it is stated over the reals ([R]); rounding is
    not modelled there. *)

From Stdlib Require Import Reals Lia QArith Qround ZArith String Ascii Psatz.
From Stdlib Require Floats Uint63.
From stdpp Require Import gmap strings list fin_maps pretty.

Set Warnings "-register-all".
Set Warnings "-inexact-float".

(* ===================================================================== *)
(** * Part I: the embedding                                               *)
(* ===================================================================== *)

(** ** Python helpers: [str.replace], [in] on strings, ordered dicts *)

Module Py.

(** [needle in s] for strings. *)
Fixpoint str_contains (needle s : string) : bool :=
  String.prefix needle s ||
  match s with
  | EmptyString => false
  | String _ s' => str_contains needle s'
  end.

(** [s.replace(old, new)] for a non-empty [old]: non-overlapping
    occurrences are replaced from left to right.  [skip] counts the
    characters of the occurrence being replaced that are still to drop. *)
Fixpoint str_replace_from (old new : string) (skip : nat) (s : string) : string :=
  match s with
  | EmptyString => EmptyString
  | String c s' =>
      match skip with
      | S k => str_replace_from old new k s'
      | O =>
          if String.prefix old s
          then String.append new
                 (str_replace_from old new (String.length old - 1) s')
          else String c (str_replace_from old new 0 s')
      end
  end.

Definition str_replace (s old new : string) : string :=
  str_replace_from old new 0 s.

(** An insertion-ordered dict: [d[k] = v] overwrites in place when [k] is
    present and appends otherwise. *)
Fixpoint dict_set {V : Type} (k : string) (v : V) (d : list (string * V))
  : list (string * V) :=
  match d with
  | [] => [(k, v)]
  | (k', v') :: d' =>
      if String.eqb k k' then (k, v) :: d' else (k', v') :: dict_set k v d'
  end.

Fixpoint dict_get {V : Type} (k : string) (d : list (string * V)) : option V :=
  match d with
  | [] => None
  | (k', v) :: d' => if String.eqb k k' then Some v else dict_get k d'
  end.

Definition dict_update {V : Type} (d upd : list (string * V)) : list (string * V) :=
  fold_left (fun acc kv => dict_set (fst kv) (snd kv) acc) upd d.

End Py.

(** ** [calibration_utils/cr_correction_phase/analysis.py] *)

Module Analysis.
Import Py.
Local Open Scope Q_scope.

(** [@dataclass class FitParameters]: its only field is [success]. *)
Record FitParameters : Type := { success : bool }.

(** An [xr.Dataset] as far as the module reads it: named data variables
    (each a flattened array of samples) in insertion order, and named
    coordinates with their label values.  [ds.qubit_pair] is resolved among
    the coordinates. *)
Record Dataset : Type := {
  data_vars : list (string * list Q);
  coords : list (string * list string)
}.

(** [ds.assign(variables)] *)
Definition assign (ds : Dataset) (variables : list (string * list Q)) : Dataset :=
  {| data_vars := dict_update (data_vars ds) variables; coords := coords ds |}.

(** The dict comprehension of [fit_raw_data]:
    [{col.replace("state", "bloch"): -2 * ds[col] + 1
      for col in ds.data_vars if "state" in col}] *)
Definition bloch_variables (ds : Dataset) : list (string * list Q) :=
  fold_left
    (fun acc cv =>
       if str_contains "state" (fst cv)
       then dict_set (str_replace (fst cv) "state" "bloch")
              (List.map (fun x => (-2 * x + 1)%Q) (snd cv)) acc
       else acc)
    (data_vars ds) [].

(** [_extract_relevant_fit_parameters(fit, node)]; [None] stands for the
    [AttributeError] of a dataset without a [qubit_pair] coordinate. *)
Definition _extract_relevant_fit_parameters {Node : Type}
    (fit : Dataset) (node : Node)
  : option (Dataset * gmap string FitParameters) :=
  match dict_get "qubit_pair" (coords fit) with
  | None => None
  | Some qps =>
      Some (fit,
            fold_left (fun d qp => <[qp := {| success := true |}]> d) qps ∅)
  end.

(** [fit_raw_data(ds, node)] *)
Definition fit_raw_data {Node : Type} (ds : Dataset) (node : Node)
  : option (Dataset * gmap string FitParameters) :=
  let ds_fit := assign ds (bloch_variables ds) in
  _extract_relevant_fit_parameters ds_fit node.

(** Two datasets over the same qubit pair whose I/Q traces differ. *)
Definition ds_flat : Dataset :=
  {| data_vars := [("I_control", [1#10; 1#10; 1#10]); ("Q_control", [0; 0; 0])];
     coords := [("qubit_pair", ["q1-q2"])] |}.

Definition ds_swing : Dataset :=
  {| data_vars := [("I_control", [1#10; -1#10; 1#10]); ("Q_control", [3#10; 0; -3#10])];
     coords := [("qubit_pair", ["q1-q2"])] |}.

Definition ds_states : Dataset :=
  {| data_vars := [("state_control", [0; 1; 1#2]); ("I_target", [1#4])];
     coords := [("qubit_pair", ["q1-q2"; "q2-q3"])] |}.

End Analysis.

(** ** The fragment of QUA the power-Rabi script emits *)

Module Qua.

(** QUA variables declared by the script ([qua_declaration] gives [I[i]],
    [Q[i]] and [n]; the script adds [a], [npi] and [count]) and the streams
    they are saved to. *)
Inductive Var : Type := I (i : nat) | Q_ (i : nat) | n | a | npi | count.
Inductive Stream : Type := I_st (i : nat) | Q_st (i : nat) | n_st.

#[global] Instance Var_eq_dec : EqDecision Var.
Proof. solve_decision. Defined.
#[global] Instance Stream_eq_dec : EqDecision Stream.
Proof. solve_decision. Defined.

(** Statements.  [For v lo hi body] is [for_(v, lo, v < hi, v + 1)];
    [ForEach v xs body] is [for_ applied to from_array(v, xs)], taken to visit the
    values of [xs] in order. *)
Inductive Stmt : Type :=
| update_frequency (element : string) (new_frequency : Z)
| play (pulse element : string) (amplitude_scale : option Var)
| align
| measure (pulse element : string) (I_var Q_var : Var)
| save (var : Var) (stream : Stream)
| wait (duration : Z) (element : string)
| For (var : Var) (lo hi : Z) (body : list Stmt)
| ForEach (var : Var) (values : list Q) (body : list Stmt).

(** Stream-processing pipelines: [stream.buffer(k)....average().save(tag)]. *)
Inductive StreamOp : Type := buffer (k : nat) | average.
Record Pipeline : Type := {
  source : Stream;
  operators : list StreamOp;
  save_tag : string
}.

Record Program : Type := {
  declared : list Var;
  body : list Stmt;
  stream_processing : list Pipeline
}.

(** The variables a statement reads or writes. *)
Fixpoint stmt_vars (s : Stmt) : list Var :=
  match s with
  | update_frequency _ _ | align | wait _ _ => []
  | play _ _ sc => match sc with Some v => [v] | None => [] end
  | measure _ _ vi vq => [vi; vq]
  | save v _ => [v]
  | For v _ _ b => v :: flat_map stmt_vars b
  | ForEach v _ b => v :: flat_map stmt_vars b
  end.

(** What the hardware is observed to do. *)
Inductive Event : Type :=
| EvPlay (element pulse : string) (scale : option Q) (frequency : option Z)
| EvAlign
| EvMeasure (element pulse : string) (frequency : option Z)
| EvWait (element : string) (duration : Z).

Record State : Type := {
  vars : Var -> Q;
  freqs : gmap string Z;
  streams : Stream -> list Q;
  shots : nat;
  trace : list Event
}.

Definition set_var (v : Var) (x : Q) (st : State) : State :=
  {| vars := fun v' => if decide (v' = v) then x else vars st v';
     freqs := freqs st; streams := streams st;
     shots := shots st; trace := trace st |}.

Definition emit (e : Event) (st : State) : State :=
  {| vars := vars st; freqs := freqs st; streams := streams st;
     shots := shots st; trace := trace st ++ [e] |}.

Definition push (s : Stream) (x : Q) (st : State) : State :=
  {| vars := vars st; freqs := freqs st;
     streams := fun s' => if decide (s' = s) then streams st s' ++ [x] else streams st s';
     shots := shots st; trace := trace st |}.

Section Exec.
(** The readout: the [k]-th measurement of a run demodulates to
    [demod k = (I, Q)].  Any physics is allowed. *)
Variable demod : nat -> Q * Q.

Fixpoint exec (s : Stmt) (st : State) {struct s} : State :=
  match s with
  | update_frequency e f =>
      {| vars := vars st; freqs := <[e := f]> (freqs st);
         streams := streams st; shots := shots st; trace := trace st |}
  | play p e sc => emit (EvPlay e p (vars st <$> sc) (freqs st !! e)) st
  | align => emit EvAlign st
  | measure p e vi vq =>
      let st1 := emit (EvMeasure e p (freqs st !! e)) st in
      let st2 := set_var vq (snd (demod (shots st)))
                   (set_var vi (fst (demod (shots st))) st1) in
      {| vars := vars st2; freqs := freqs st2; streams := streams st2;
         shots := S (shots st); trace := trace st2 |}
  | save v s => push s (vars st v) st
  | wait d e => emit (EvWait e d) st
  | For v lo hi b =>
      fold_left
        (fun st k =>
           (fix run (b : list Stmt) (st : State) : State :=
              match b with
              | [] => st
              | x :: b' => run b' (exec x st)
              end) b (set_var v (inject_Z k) st))
        (seqZ lo (hi - lo)) st
  | ForEach v xs b =>
      fold_left
        (fun st x =>
           (fix run (b : list Stmt) (st : State) : State :=
              match b with
              | [] => st
              | x :: b' => run b' (exec x st)
              end) b (set_var v x st))
        xs st
  end.

Definition exec_block (b : list Stmt) (st : State) : State :=
  fold_left (fun st s => exec s st) b st.
End Exec.

(** A piece of program seen from outside: it appends the events [evs],
    takes [k] shots, and appends [out k0 s] to stream [s] when it starts at
    shot [k0]. *)
Definition step_of (f : State -> State) (evs : list Event) (k : nat)
    (out : nat -> Stream -> list Q) : Prop :=
  forall st, trace (f st) = trace st ++ evs
        /\ shots (f st) = (shots st + k)%nat
        /\ forall s, streams (f st) s = streams st s ++ out (shots st) s.

(** *** Stream processing.  Items flowing through a pipeline are vectors;
    a raw stream carries one-element vectors. *)

(** [buffer(k)]: every [k] consecutive items form one item; an incomplete
    tail stays pending.  [cur] is the pending part. *)
Fixpoint buffer_from (k : nat) (cur : list Q) (items : list (list Q)) : list (list Q) :=
  match items with
  | [] => []
  | x :: rest =>
      let cur' := cur ++ x in
      if (length cur' =? k)%nat then cur' :: buffer_from k [] rest
      else buffer_from k cur' rest
  end.

Definition vadd (u v : list Q) : list Q := zip_with Qplus u v.

(** [average()]: the running mean of the items seen so far; [acc] is their
    sum and [cnt] their number. *)
Fixpoint average_from (acc : option (list Q)) (cnt : nat) (items : list (list Q))
  : list (list Q) :=
  match items with
  | [] => []
  | x :: rest =>
      let acc' := match acc with None => x | Some s => vadd s x end in
      List.map (fun y => (y / inject_Z (Z.of_nat (S cnt)))%Q) acc'
        :: average_from (Some acc') (S cnt) rest
  end.

Definition apply_op (op : StreamOp) (items : list (list Q)) : list (list Q) :=
  match op with
  | buffer k => buffer_from k [] items
  | average => average_from None 0 items
  end.

(** [.save(tag)] keeps the last item; [None] when nothing arrived. *)
Definition run_pipeline (p : Pipeline) (streams : Stream -> list Q) : option (list Q) :=
  last (fold_left (fun items op => apply_op op items) (operators p)
          (List.map (fun x => [x]) (streams (source p)))).

End Qua.

(** ** IEEE binary64 numbers: Python's [float], numpy's [float64] *)

Module Binary64.
Import PrimFloat SpecFloat FloatOps.
Local Open Scope float_scope.

(** The rational a finite double is; [None] for [inf] and [nan]. *)
Definition to_Q (x : float) : option Q :=
  match Prim2SF x with
  | S754_zero _ => Some 0%Q
  | S754_finite s m e =>
      let num := if s then Z.neg m else Z.pos m in
      Some (Qred (match e with
                  | Zneg k => num # (2 ^ k)
                  | _ => inject_Z (num * 2 ^ e)
                  end))
  | _ => None
  end.

Definition Z2SF (n : Z) : spec_float :=
  match n with
  | Z0 => S754_zero false
  | Zpos p => S754_finite false p 0
  | Zneg p => S754_finite true p 0
  end.

(** The double nearest to a rational, ties to even: the value Python reads
    a decimal such as [0.005] as. *)
Definition of_Q (q : Q) : float :=
  match Qnum q with
  | Z0 => 0
  | n => SF2Prim (SFdiv prec emax (Z2SF n) (Z2SF (Zpos (Qden q))))
  end.

(** [ceil] of a finite double, as an integer. *)
Definition ceil (x : float) : option Z := Qceiling <$> to_Q x.

Definition of_nat (i : nat) : float := of_uint63 (Uint63.of_Z (Z.of_nat i)).

(** [np.arange(start, stop, step)] on doubles.  The length is
    [ceil((stop - start) / step)]; a zero step raises in the division, and
    so does a length that is not a number or not within the range of a
    64-bit index.  The first value is [start], the second [start + step],
    and the value of index [i >= 2] is [start + i * delta] with
    [delta = (start + step) - start]; every operation rounds. *)
Definition arange (start stop step : float) : option (list float) :=
  if step =? 0 then None
  else
    len ← ceil ((stop - start) / step);
    if ((len <? - 2 ^ 63) || (2 ^ 63 <? len))%Z then None
    else
      Some (match Z.to_nat len with
            | O => []
            | S O => [start]
            | S (S n) =>
                let next := start + step in
                let delta := next - start in
                start :: next :: List.map (fun i => start + of_nat i * delta) (seq 2 n)
            end).
End Binary64.

(** ** [calibrations/15b_Power_Rabi_E_to_F.py] *)

Module PowerRabiEF.
Import Qua.

(** *** The QuAM objects the script touches.

    A pulse carries [amplitude], [length] and [digital_marker]; the DRAG
    attributes are [None] on pulse classes that do not have them (reading
    them raises [AttributeError]).  Frequencies are integers in Hz, as
    [update_frequency] takes them.  A qubit is referred to by the key it has
    in [machine.qubits], which is also its [name]. *)

Module Pulse.
Record t : Type := {
  pulse_class : string;
  amplitude : R;
  length : Z;
  digital_marker : option string;
  alpha : option R;
  anharmonicity : option R;
  axis_angle : option R
}.

Definition set_amplitude (x : R) (p : t) : t :=
  {| pulse_class := pulse_class p; amplitude := x; length := length p;
     digital_marker := digital_marker p; alpha := alpha p;
     anharmonicity := anharmonicity p; axis_angle := axis_angle p |}.

(** [pulses.DragCosinePulse(amplitude=, alpha=, anharmonicity=, length=,
    axis_angle=, digital_marker=)] *)
Definition DragCosinePulse (amplitude alpha anharmonicity : R) (length : Z)
    (axis_angle : R) (digital_marker : option string) : t :=
  {| pulse_class := "DragCosinePulse"; amplitude := amplitude;
     length := length; digital_marker := digital_marker;
     alpha := Some alpha; anharmonicity := Some anharmonicity;
     axis_angle := Some axis_angle |}.
End Pulse.

Module Channel.
Record t : Type := {
  name : string;
  intermediate_frequency : Z;
  operations : gmap string Pulse.t
}.

Definition set_operations (ops : gmap string Pulse.t) (c : t) : t :=
  {| name := name c; intermediate_frequency := intermediate_frequency c;
     operations := ops |}.
End Channel.

Module Qubit.
Record t : Type := {
  xy : Channel.t;
  resonator : Channel.t;
  anharmonicity : Z;
  GEF_frequency_shift : option Z
}.

Definition set_xy (c : Channel.t) (q : t) : t :=
  {| xy := c; resonator := resonator q; anharmonicity := anharmonicity q;
     GEF_frequency_shift := GEF_frequency_shift q |}.

Definition set_GEF_frequency_shift (x : Z) (q : t) : t :=
  {| xy := xy q; resonator := resonator q; anharmonicity := anharmonicity q;
     GEF_frequency_shift := Some x |}.
End Qubit.

Module QuAM.
Record t : Type := {
  qubits : gmap string Qubit.t;
  active_qubits : list string;
  thermalization_time : Z
}.

Definition set_qubits (qs : gmap string Qubit.t) (m : t) : t :=
  {| qubits := qs; active_qubits := active_qubits m;
     thermalization_time := thermalization_time m |}.
End QuAM.

(** [class Parameters(NodeParameters)] and its defaults. *)
Record Parameters : Type := {
  qubits : option (list string);
  num_averages : Z;
  operation : string;
  min_amp_factor : Q;
  max_amp_factor : Q;
  amp_factor_step : Q;
  simulate : bool;
  timeout : Z
}.

Definition default_parameters : Parameters :=
  {| qubits := Some ["q1"]; num_averages := 200; operation := "x180";
     min_amp_factor := 0; max_amp_factor := 15 # 10;
     amp_factor_step := 5 # 1000; simulate := false; timeout := 100 |}.

(** A sweep from 0 to 3 in steps of 1, and one from 0 to 1 in steps of 1/2. *)
Definition wide_parameters : Parameters :=
  {| qubits := Some ["q1"]; num_averages := 200; operation := "x180";
     min_amp_factor := 0; max_amp_factor := 3; amp_factor_step := 1;
     simulate := false; timeout := 100 |}.

Definition coarse_parameters : Parameters :=
  {| qubits := Some ["q1"]; num_averages := 2; operation := "x180";
     min_amp_factor := 0; max_amp_factor := 1; amp_factor_step := 1 # 2;
     simulate := false; timeout := 100 |}.

(** A sweep from 1.7 to 2.0 in steps of 0.1; for a simulation, a sweep from
    1 to 0 in steps of 1/2, which has no point, and an operation the qubits
    do not have. *)
Definition edge_parameters : Parameters :=
  {| qubits := Some ["q1"]; num_averages := 200; operation := "x180";
     min_amp_factor := 17 # 10; max_amp_factor := 2; amp_factor_step := 1 # 10;
     simulate := false; timeout := 100 |}.

Definition empty_sweep_parameters : Parameters :=
  {| qubits := Some ["q1"]; num_averages := 2; operation := "x180";
     min_amp_factor := 1; max_amp_factor := 0; amp_factor_step := 1 # 2;
     simulate := true; timeout := 100 |}.

Definition unknown_operation_parameters : Parameters :=
  {| qubits := Some ["q1"]; num_averages := 2; operation := "y90";
     min_amp_factor := 0; max_amp_factor := 1; amp_factor_step := 1 # 2;
     simulate := true; timeout := 100 |}.

(** *** Initialisation: the qubits to calibrate *)

(** [machine.active_qubits] when [parameters.qubits] is [None], else
    [[machine.qubits[q] for q in parameters.qubits]]; a missing key raises. *)
Definition select_qubits (params : Parameters) (machine : QuAM.t)
  : option (list string) :=
  mapM (fun q => (fun _ => q) <$> (QuAM.qubits machine !! q))
    (match qubits params with
     | None => QuAM.active_qubits machine
     | Some names => names
     end).

(** [if not hasattr(q, "GEF_frequency_shift"): q.GEF_frequency_shift = 0] *)
Definition ensure_GEF_frequency_shift (q : Qubit.t) : Qubit.t :=
  match Qubit.GEF_frequency_shift q with
  | Some _ => q
  | None => Qubit.set_GEF_frequency_shift 0 q
  end.

Definition init_qubits (qs : list string) (machine : QuAM.t) : QuAM.t :=
  fold_left
    (fun m q => QuAM.set_qubits (alter ensure_GEF_frequency_shift q (QuAM.qubits m)) m)
    qs machine.

(** *** The amplitude sweep *)

(** [np.arange(start, stop, step)] in exact arithmetic:
    [ceil((stop - start) / step)] values [start + i * step]; a zero step
    raises.  This is the sweep before rounding; the doubles numpy returns
    ([Binary64.arange]) can differ from it in the last places, and the last
    of them can land on the stop or beyond it. *)
Definition arange (start stop step : Q) : option (list Q) :=
  if Qeq_bool step 0 then None
  else Some (List.map (fun i => (start + inject_Z (Z.of_nat i) * step)%Q)
               (seq 0 (Z.to_nat (Qceiling ((stop - start) / step))))).

(** [amps = np.arange(min_amp_factor, max_amp_factor, amp_factor_step)] on
    the doubles the three parameters are; each point is kept as the
    rational it is ([None] also when a point is not finite). *)
Definition amps (params : Parameters) : option (list Q) :=
  l ← Binary64.arange (Binary64.of_Q (min_amp_factor params))
        (Binary64.of_Q (max_amp_factor params))
        (Binary64.of_Q (amp_factor_step params));
  mapM Binary64.to_Q l.

(** The range the comment above the sweep asks for: [[-2, 2)]. *)
Definition within_hardware_range (x : Q) : bool :=
  Qle_bool (-2) x && negb (Qle_bool 2 x).

(** *** The QUA program *)

(** The body of the innermost loop, for qubit number [i]. *)
Definition sweep_point (operation : string) (thermalization : Z)
    (i : nat) (qubit : Qubit.t) : list Stmt :=
  [ update_frequency (Channel.name (Qubit.resonator qubit))
      (Channel.intermediate_frequency (Qubit.resonator qubit)
       + default 0%Z (Qubit.GEF_frequency_shift qubit));
    update_frequency (Channel.name (Qubit.xy qubit))
      (Channel.intermediate_frequency (Qubit.xy qubit));
    play operation (Channel.name (Qubit.xy qubit)) None;
    update_frequency (Channel.name (Qubit.xy qubit))
      (Channel.intermediate_frequency (Qubit.xy qubit) - Qubit.anharmonicity qubit);
    play operation (Channel.name (Qubit.xy qubit)) (Some a);
    align;
    measure "readout" (Channel.name (Qubit.resonator qubit)) (I i) (Q_ i);
    save (I i) (I_st i);
    save (Q_ i) (Q_st i);
    wait thermalization (Channel.name (Qubit.resonator qubit)) ].

(** The part of the program written for qubit number [i]. *)
Definition qubit_block (operation : string) (n_avg : Z) (amps : list Q)
    (thermalization : Z) (i : nat) (qubit : Qubit.t) : list Stmt :=
  [ For n 0 n_avg
      [ save n n_st;
        ForEach a amps (sweep_point operation thermalization i qubit) ];
    align ].

Definition qubit_pipelines (amps : list Q) (i : nat) : list Pipeline :=
  [ {| source := I_st i; operators := [buffer (length amps); average];
       save_tag := "I" ++ pretty (i + 1)%nat |};
    {| source := Q_st i; operators := [buffer (length amps); average];
       save_tag := "Q" ++ pretty (i + 1)%nat |} ].

(** [with program() as power_rabi: ...]: the program the block leaves when
    Python has run it to its end; [build_power_rabi] below says when it
    does. *)
Definition power_rabi (qubits : list Qubit.t) (operation : string) (n_avg : Z)
    (amps : list Q) (thermalization : Z) : Program :=
  {| declared :=
       List.map I (seq 0 (length qubits)) ++ List.map Q_ (seq 0 (length qubits))
       ++ [n; a; npi; count];
     body :=
       concat (imap (qubit_block operation n_avg amps thermalization) qubits);
     stream_processing :=
       {| source := n_st; operators := []; save_tag := "n" |}
       :: concat (imap (fun i _ => qubit_pipelines amps i) qubits) |}.

(** The range of a QUA [fixed]: [[-8, 8)]. *)
Definition in_fixed_range (x : Q) : bool :=
  Qle_bool (-8) x && negb (Qle_bool 8 x).

(** [from_array(a, amps)] of qualang_tools for the [fixed] variable [a]: the
    values the loop of [for_] goes through.  It raises on an empty array
    ("The array must be of length > 0"), and on an array of two or more
    values whose first and last are both outside the range of a [fixed].
    Its test for equal spacing, which a sweep of [np.arange] meets up to
    rounding, is not modelled. *)
Definition from_array (array : list Q) : option (list Q) :=
  match array with
  | [] => None
  | [_] => Some array
  | start :: _ =>
      if in_fixed_range start || in_fixed_range (List.last array start)
      then Some array
      else None
  end.

(** What the block asks of one qubit while Python runs it: [from_array]
    takes the sweep, [qubit.xy.play(operation)] finds the operation among
    those of the XY channel and [qubit.resonator.measure("readout")] finds
    the readout pulse among those of the resonator ([KeyError]
    otherwise). *)
Definition can_build (operation : string) (amps : list Q) (qubit : Qubit.t) : bool :=
  match from_array amps,
        Channel.operations (Qubit.xy qubit) !! operation,
        Channel.operations (Qubit.resonator qubit) !! "readout" with
  | Some _, Some _, Some _ => true
  | _, _, _ => false
  end.

(** Running the body of [with program() as power_rabi:]. *)
Definition build_power_rabi (qubits : list Qubit.t) (operation : string) (n_avg : Z)
    (amps : list Q) (thermalization : Z) : option Program :=
  if forallb (can_build operation amps) qubits
  then Some (power_rabi qubits operation n_avg amps thermalization)
  else None.

(** [qm.execute(power_rabi)] on a machine whose elements start at the
    frequencies of [config]. *)
Definition initial_state (config : gmap string Z) : State :=
  {| vars := fun _ => 0%Q; freqs := config; streams := fun _ => [];
     shots := 0; trace := [] |}.

Definition execute (demod : nat -> Q * Q) (config : gmap string Z)
    (prog : Program) : State :=
  exec_block demod (body prog) (initial_state config).

(** *** Data analysis (the fit itself is [quam_libs.lib.fit.fit_oscillation];
    its output per qubit is an input here) *)

Record FitVals : Type := { fit_a : R; fit_f : R; fit_phi : R; fit_offset : R }.

Definition Rltb (x y : R) : bool := if Rlt_dec x y then true else false.
Definition Rgtb (x y : R) : bool := Rltb y x.
(** A numpy boolean used as a number. *)
Definition bool_to_R (b : bool) : R := if b then 1%R else 0%R.

(** [phi_fit = phi_fit - np.pi * (phi_fit > np.pi / 2)] *)
Definition adjust_phase (phi_fit : R) : R :=
  (phi_fit - PI * bool_to_R (Rgtb phi_fit (PI / 2)))%R.

(** [factor = float(1.0 * (np.pi - phi_fit) / (2 * np.pi * f_fit))].
    [None] is a non-finite float ([inf] or [nan]), which is what a zero
    divisor gives. *)
Definition factor (f_fit phi_fit : R) : option R :=
  if Req_dec_T (2 * PI * f_fit) 0 then None
  else Some (1 * (PI - adjust_phase phi_fit) / (2 * PI * f_fit))%R.

(** [new_pi_amp = q.xy.operations[operation].amplitude * factor] *)
Definition new_pi_amp (amplitude : R) (factor : option R) : option R :=
  (fun x => (amplitude * x)%R) <$> factor.

(** The branch on [np.abs(new_pi_amp) < 0.3]; the comparison is [False] on
    a non-finite value. *)
Definition Pi_amplitude (new_pi_amp : option R) : R :=
  match new_pi_amp with
  | Some x => if Rltb (Rabs x) (3 / 10) then x else (3 / 10)%R
  | None => (3 / 10)%R
  end.

(** One iteration of [for q in qubits:] of the analysis; [None] is the
    [KeyError] of a missing qubit or operation. *)
Definition analyse_qubit (operation : string) (fit : string -> FitVals)
    (machine : QuAM.t) (fit_results : gmap string R) (q : string)
  : option (gmap string R) :=
  qubit ← QuAM.qubits machine !! q;
  p ← Channel.operations (Qubit.xy qubit) !! operation;
  Some (<[q := Pi_amplitude
                 (new_pi_amp (Pulse.amplitude p)
                    (factor (fit_f (fit q)) (fit_phi (fit q))))]> fit_results).

Definition foldM {A B : Type} (f : B -> A -> option B) (l : list A) (b : B) : option B :=
  fold_left (fun acc x => acc ≫= fun b => f b x) l (Some b).

Definition data_analysis (operation : string) (fit : string -> FitVals)
    (qubits : list string) (machine : QuAM.t) : option (gmap string R) :=
  foldM (analyse_qubit operation fit machine) qubits ∅.

(** *** State update *)

Definition ef_operation_name (operation : string) : string := "EF_" ++ operation.

(** The branch on [ef_operation_name not in q.xy.operations], on the
    operations of one qubit: create the |e> -> |f> pulse from the fields of
    [operation], or overwrite its [amplitude]. *)
Definition update_operations (operation : string) (pi_amp : R)
    (ops : gmap string Pulse.t) : option (gmap string Pulse.t) :=
  match ops !! ef_operation_name operation with
  | None =>
      p ← ops !! operation;
      alpha ← Pulse.alpha p;
      anharmonicity ← Pulse.anharmonicity p;
      Some (<[ef_operation_name operation :=
                Pulse.DragCosinePulse pi_amp alpha anharmonicity
                  (Pulse.length p) 0 (Pulse.digital_marker p)]> ops)
  | Some ef =>
      Some (<[ef_operation_name operation := Pulse.set_amplitude pi_amp ef]> ops)
  end.

(** One iteration of [for q in qubits:] of the update. *)
Definition update_qubit (operation : string) (fit_results : gmap string R)
    (machine : QuAM.t) (q : string) : option QuAM.t :=
  qubit ← QuAM.qubits machine !! q;
  pi_amp ← fit_results !! q;
  ops ← update_operations operation pi_amp (Channel.operations (Qubit.xy qubit));
  Some (QuAM.set_qubits
          (<[q := Qubit.set_xy (Channel.set_operations ops (Qubit.xy qubit)) qubit]>
             (QuAM.qubits machine))
          machine).

Definition update_state (operation : string) (fit_results : gmap string R)
    (qubits : list string) (machine : QuAM.t) : option QuAM.t :=
  foldM (update_qubit operation fit_results) qubits machine.

(** *** The node and the whole script *)

Record Node : Type := {
  results_fit : option (gmap string R);
  outcomes : gmap string string;
  machine : option QuAM.t
}.

(** What [node.save()] writes: the node as it is at that moment. *)
Definition save_node (node : Node) : Node := node.

Record Run : Type := {
  program : Program;
  node : Node;
  saved : Node
}.

(** The script from top to bottom; [None] is an exception, which ends it.
    [fit] is what [fit_oscillation] returns for the measured data;
    [times_u_ns t] is [t * u.ns], the conversion done by
    [unit(coerce_to_integer=True)] of qualang_tools. *)
Definition script (times_u_ns : Z -> Z) (params : Parameters) (machine0 : QuAM.t)
    (fit : string -> FitVals) : option Run :=
  qubits ← select_qubits params machine0;
  let machine := init_qubits qubits machine0 in
  qubit_objects ← mapM (fun q => QuAM.qubits machine !! q) qubits;
  amps ← amps params;
  power_rabi ←
    build_power_rabi qubit_objects (operation params) (num_averages params) amps
      (times_u_ns (QuAM.thermalization_time machine));
  if simulate params then
    let node := {| results_fit := None; outcomes := ∅; machine := Some machine |} in
    Some {| program := power_rabi; node := node; saved := save_node node |}
  else
    fit_results ← data_analysis (operation params) fit qubits machine;
    machine' ← update_state (operation params) fit_results qubits machine;
    let node :=
      {| results_fit := Some fit_results;
         outcomes := list_to_map (List.map (fun q => (q, "successful")) qubits);
         machine := Some machine' |} in
    Some {| program := power_rabi; node := node; saved := save_node node |}.

(** *** The run in the words of the specification *)

(** The frequency the readout element is at when it is measured. *)
Definition resonator_frequency (qubit : Qubit.t) : Z :=
  if decide (Channel.name (Qubit.xy qubit) = Channel.name (Qubit.resonator qubit))
  then Channel.intermediate_frequency (Qubit.xy qubit) - Qubit.anharmonicity qubit
  else Channel.intermediate_frequency (Qubit.resonator qubit)
       + default 0%Z (Qubit.GEF_frequency_shift qubit).

(** One amplitude point: the operation at the native XY intermediate
    frequency, the operation scaled by [x] at that frequency less the
    anharmonicity, an align, the readout, the thermalisation wait. *)
Definition point_events (operation : string) (thermalization : Z)
    (qubit : Qubit.t) (x : Q) : list Event :=
  [ EvPlay (Channel.name (Qubit.xy qubit)) operation None
      (Some (Channel.intermediate_frequency (Qubit.xy qubit)));
    EvPlay (Channel.name (Qubit.xy qubit)) operation (Some x)
      (Some (Channel.intermediate_frequency (Qubit.xy qubit)
             - Qubit.anharmonicity qubit)%Z);
    EvAlign;
    EvMeasure (Channel.name (Qubit.resonator qubit)) "readout"
      (Some (resonator_frequency qubit));
    EvWait (Channel.name (Qubit.resonator qubit)) thermalization ].

Definition qubit_events (operation : string) (n_avg : Z) (amps : list Q)
    (thermalization : Z) (qubit : Qubit.t) : list Event :=
  flat_map (fun _ : Z => flat_map (point_events operation thermalization qubit) amps)
    (seqZ 0 n_avg)
  ++ [EvAlign].

Definition is_scaled_play (e : Event) : bool :=
  match e with EvPlay _ _ (Some _) _ => true | _ => false end.

Definition is_measure (e : Event) : bool :=
  match e with EvMeasure _ _ _ => true | _ => false end.

(** The number of the shot taken for qubit [i], repetition [r], amplitude
    point [j], when every qubit takes [n_avg * n_amps] shots. *)
Definition shot_index (n_avg n_amps i r j : nat) : nat :=
  (i * (n_avg * n_amps) + r * n_amps + j)%nat.

Definition Qsum (l : list Q) : Q := fold_right Qplus 0%Q l.

(** The mean over the repetitions of component [part] of the readout at
    amplitude point [j] of qubit [i]. *)
Definition mean_over_repetitions (part : Q * Q -> Q) (demod : nat -> Q * Q)
    (n_avg n_amps i j : nat) : Q :=
  (Qsum (List.map (fun r => part (demod (shot_index n_avg n_amps i r j)))
           (seq 0 n_avg))
   / inject_Z (Z.of_nat n_avg))%Q.

(** What the streams receive: at one amplitude point taken as shot [k],
    during one repetition, and during the whole block of qubit [i]. *)
Definition point_out (demod : nat -> Q * Q) (i : nat) (k : nat) (s : Stream) : list Q :=
  (if decide (s = I_st i) then [fst (demod k)] else [])
  ++ (if decide (s = Q_st i) then [snd (demod k)] else []).

Definition sweep_out (demod : nat -> Q * Q) (i : nat) (amps : list Q)
    (k0 : nat) (s : Stream) : list Q :=
  concat (imap (fun j (_ : Q) => point_out demod i (k0 + j * 1)%nat s) amps).

Definition repetition_out (demod : nat -> Q * Q) (i : nat) (amps : list Q)
    (r : Z) (k0 : nat) (s : Stream) : list Q :=
  (if decide (s = n_st) then [inject_Z r] else []) ++ sweep_out demod i amps k0 s.

Definition qubit_out (demod : nat -> Q * Q) (n_avg : Z) (amps : list Q)
    (i : nat) (k0 : nat) (s : Stream) : list Q :=
  concat (imap (fun j r => repetition_out demod i amps r
                             (k0 + j * (length amps * 1))%nat s)
            (seqZ 0 n_avg)).

(** The I stream ([true]) or the Q stream ([false]) of qubit [i], and the
    matching component of a readout. *)
Definition data_stream (b : bool) (i : nat) : Stream := if b then I_st i else Q_st i.
Definition part (b : bool) (iq : Q * Q) : Q := if b then fst iq else snd iq.
Definition data_pipeline (b : bool) (amps : list Q) (i : nat) : Pipeline :=
  {| source := data_stream b i; operators := [buffer (length amps); average];
     save_tag := (if b then "I" else "Q") ++ pretty (i + 1)%nat |}.

(** *** A one-qubit machine to run the script on *)

Definition x180_example : Pulse.t :=
  Pulse.DragCosinePulse (1 / 10) 0 200000000 40 0 (Some "ON").

Definition readout_example : Pulse.t :=
  {| Pulse.pulse_class := "SquareReadoutPulse"; Pulse.amplitude := 1 / 100;
     Pulse.length := 1000; Pulse.digital_marker := Some "ON";
     Pulse.alpha := None; Pulse.anharmonicity := None; Pulse.axis_angle := None |}.

Definition q1_example : Qubit.t :=
  {| Qubit.xy := {| Channel.name := "q1.xy";
                    Channel.intermediate_frequency := -50000000;
                    Channel.operations := {[ "x180" := x180_example ]} |};
     Qubit.resonator := {| Channel.name := "q1.resonator";
                           Channel.intermediate_frequency := 30000000;
                           Channel.operations := {[ "readout" := readout_example ]} |};
     Qubit.anharmonicity := 200000000;
     Qubit.GEF_frequency_shift := None |}.

Definition machine_example : QuAM.t :=
  {| QuAM.qubits := {[ "q1" := q1_example ]};
     QuAM.active_qubits := ["q1"];
     QuAM.thermalization_time := 100 |}.

(** A readout that returns the shot number as I and its negation as Q. *)
Definition demod_example (k : nat) : Q * Q :=
  (inject_Z (Z.of_nat k), (- inject_Z (Z.of_nat k))%Q).

(** *** Per-qubit views used to state the results *)

(** The amplitude the analysis stores for qubit [q]. *)
Definition stored_pi_amplitude (operation : string) (fit : string -> FitVals)
    (machine : QuAM.t) (q : string) : option R :=
  qubit ← QuAM.qubits machine !! q;
  p ← Channel.operations (Qubit.xy qubit) !! operation;
  Some (Pi_amplitude
          (new_pi_amp (Pulse.amplitude p)
             (factor (fit_f (fit q)) (fit_phi (fit q))))).

(** The operations of the XY channel of qubit [q]. *)
Definition xy_operations (machine : QuAM.t) (q : string)
  : option (gmap string Pulse.t) :=
  (fun qubit => Channel.operations (Qubit.xy qubit)) <$> (QuAM.qubits machine !! q).

(** A qubit the script can calibrate: it has the operation, and when the
    |e> -> |f> operation is still to be created the operation has the DRAG
    attributes the constructor is fed with. *)
Definition calibratable (operation : string) (ops : gmap string Pulse.t) : Prop :=
  exists p, ops !! operation = Some p
       /\ (ops !! ef_operation_name operation = None ->
           is_Some (Pulse.alpha p) /\ is_Some (Pulse.anharmonicity p)).

(** The XY operations of qubit [q] after one pass of the update over it. *)
Definition updated_operations (operation : string) (fit_results : gmap string R)
    (machine : QuAM.t) (q : string) : option (gmap string Pulse.t) :=
  pi_amp ← fit_results !! q;
  ops ← xy_operations machine q;
  update_operations operation pi_amp ops.

(** Fit values of a clean oscillation of period 2.5 starting at a
    maximum. *)
Definition fit_example (_ : string) : FitVals :=
  {| fit_a := 1; fit_f := 2 / 5; fit_phi := 0; fit_offset := 0 |}.

(** An unscaled play, and the parameters as requested. *)
Definition is_plain_play (e : Event) : bool :=
  match e with EvPlay _ _ None _ => true | _ => false end.

Definition requested_qubits (params : Parameters) (machine : QuAM.t) : list string :=
  match qubits params with
  | None => QuAM.active_qubits machine
  | Some names => names
  end.

(** The element frequencies after one amplitude point of a qubit. *)
Definition retuned (qubit : Qubit.t) (freqs : gmap string Z) : gmap string Z :=
  <[Channel.name (Qubit.xy qubit) :=
      (Channel.intermediate_frequency (Qubit.xy qubit) - Qubit.anharmonicity qubit)%Z]>
    (<[Channel.name (Qubit.xy qubit) := Channel.intermediate_frequency (Qubit.xy qubit)]>
       (<[Channel.name (Qubit.resonator qubit) :=
            (Channel.intermediate_frequency (Qubit.resonator qubit)
             + default 0%Z (Qubit.GEF_frequency_shift qubit))%Z]> freqs)).

Definition element_names (qubit : Qubit.t) : list string :=
  [Channel.name (Qubit.xy qubit); Channel.name (Qubit.resonator qubit)].

(** *** Further inputs to run the script on: a qubit whose [x180] is a square
    pulse (no DRAG attributes), parameters asking for a qubit the machine
    does not have, parameters for a simulation, and a fit of frequency 0. *)
Definition square_x180 : Pulse.t :=
  {| Pulse.pulse_class := "SquarePulse"; Pulse.amplitude := 1 / 10;
     Pulse.length := 40; Pulse.digital_marker := Some "ON";
     Pulse.alpha := None; Pulse.anharmonicity := None; Pulse.axis_angle := Some 0%R |}.

Definition machine_square : QuAM.t :=
  {| QuAM.qubits :=
       {[ "q1" := Qubit.set_xy
                    (Channel.set_operations {[ "x180" := square_x180 ]}
                       (Qubit.xy q1_example)) q1_example ]};
     QuAM.active_qubits := ["q1"];
     QuAM.thermalization_time := 100 |}.

Definition unknown_qubit_parameters : Parameters :=
  {| qubits := Some ["q7"]; num_averages := 2; operation := "x180";
     min_amp_factor := 0; max_amp_factor := 1; amp_factor_step := 1 # 2;
     simulate := false; timeout := 100 |}.

Definition simulation_parameters : Parameters :=
  {| qubits := None; num_averages := 2; operation := "x180";
     min_amp_factor := 0; max_amp_factor := 1; amp_factor_step := 1 # 2;
     simulate := true; timeout := 100 |}.

Definition fit_zero_frequency (_ : string) : FitVals :=
  {| fit_a := 1; fit_f := 0; fit_phi := 0; fit_offset := 0 |}.

(** *** The calibration factor in the words of the specification: the
    phase with [pi] taken off when it exceeds [pi/2], then
    [(pi - phase) / (2 pi f)]. *)
Definition adjusted_phase_spec (phi : R) : R :=
  if Rlt_dec (PI / 2) phi then (phi - PI)%R else phi.

Definition factor_spec (f phi : R) : R :=
  ((PI - adjusted_phase_spec phi) / (2 * PI * f))%R.

End PowerRabiEF.

(* ===================================================================== *)
(** * Part II: properties                                                 *)
(* ===================================================================== *)

Section AnalysisFacts.
Import Py Analysis.
Local Open Scope Q_scope.
Context {Node : Type}.

Example str_replace_state :
  str_replace "state_control_state" "state" "bloch" = "bloch_control_bloch".
Proof. reflexivity. Qed.

Example fit_raw_data_ds_states :
  fst <$> fit_raw_data ds_states tt
  = Some {| data_vars := [("state_control", [0; 1; 1#2]); ("I_target", [1#4]);
                          ("bloch_control", [(-2 * 0 + 1)%Q; (-2 * 1 + 1)%Q; (-2 * (1#2) + 1)%Q])];
            coords := coords ds_states |}.
Proof. reflexivity. Qed.

Lemma fit_results_fold_lookup (qps : list string) (d : gmap string FitParameters) qp :
  fold_left (fun d qp => <[qp := {| success := true |}]> d) qps d !! qp
  = if decide (qp ∈ qps) then Some {| success := true |} else d !! qp.
Proof.
  revert d. induction qps as [|q qps IH]; intros d; cbn [fold_left].
  - rewrite decide_False; [done | set_solver].
  - rewrite IH. destruct (decide (qp ∈ qps)) as [Hin|Hnin].
    + rewrite decide_True; [done | set_solver].
    + destruct (decide (qp = q)) as [->|Hne].
      * rewrite decide_True; [|set_solver]. by rewrite lookup_insert_eq.
      * rewrite decide_False by (intros [?|?]%elem_of_cons; done).
        by rewrite lookup_insert_ne.
Qed.

Lemma assign_coords ds vs : coords (assign ds vs) = coords ds.
Proof. reflexivity. Qed.

Lemma extract_results (fit : Dataset) (node : Node) :
  _extract_relevant_fit_parameters fit node
  = (fun qps => (fit, fold_left (fun d qp => <[qp := {| success := true |}]> d) qps ∅))
      <$> dict_get "qubit_pair" (coords fit).
Proof. unfold _extract_relevant_fit_parameters. by destruct (dict_get _ _). Qed.

Lemma fit_raw_data_unfold (ds : Dataset) (node : Node) :
  fit_raw_data ds node
  = (fun qps => (assign ds (bloch_variables ds),
                 fold_left (fun d qp => <[qp := {| success := true |}]> d) qps ∅))
      <$> dict_get "qubit_pair" (coords ds).
Proof. unfold fit_raw_data. by rewrite extract_results, assign_coords. Qed.

(** C9.  Whatever the data, as soon as the dataset names its qubit pairs
    both [_extract_relevant_fit_parameters] and [fit_raw_data] return, every
    qubit pair gets an entry, and every entry reports [success = True]: a
    failed fit is never reported. *)
Theorem fit_always_reports_success (ds : Dataset) (node : Node) (qps : list string) :
  dict_get "qubit_pair" (coords ds) = Some qps →
  (∃ results, _extract_relevant_fit_parameters ds node = Some (ds, results)
     ∧ (∀ qp, qp ∈ qps → results !! qp = Some {| success := true |})
     ∧ (∀ qp r, results !! qp = Some r → success r = true))
  ∧ (∃ fit results, fit_raw_data ds node = Some (fit, results)
     ∧ (∀ qp, qp ∈ qps → results !! qp = Some {| success := true |})
     ∧ (∀ qp r, results !! qp = Some r → success r = true)).
Proof.
  intros Hqp.
  assert (Hall : ∀ qp r,
    fold_left (fun d qp => <[qp := {| success := true |}]> d) qps
      (∅ : gmap string FitParameters) !! qp = Some r → success r = true).
  { intros qp r. rewrite fit_results_fold_lookup.
    destruct (decide (qp ∈ qps)); [by intros [= <-] | by rewrite lookup_empty]. }
  assert (Hin : ∀ qp, qp ∈ qps →
    fold_left (fun d qp => <[qp := {| success := true |}]> d) qps
      (∅ : gmap string FitParameters) !! qp = Some {| success := true |}).
  { intros qp ?. rewrite fit_results_fold_lookup. by rewrite decide_True. }
  split.
  - eexists. rewrite extract_results, Hqp. simpl. eauto.
  - do 2 eexists. rewrite fit_raw_data_unfold, Hqp. simpl. eauto.
Qed.

(** C2, as the code has it.  The per-qubit-pair fit results hold a success
    flag and nothing else: there is one entry per label of the [qubit_pair]
    coordinate, each equal to [FitParameters(success=True)], so two datasets
    with the same labels get the same results whatever their traces. *)
Theorem fit_results_depend_on_labels_only (ds ds' : Dataset) (node : Node)
    (qps : list string) :
  dict_get "qubit_pair" (coords ds) = Some qps →
  dict_get "qubit_pair" (coords ds') = Some qps →
  ∃ fit fit' results,
    fit_raw_data ds node = Some (fit, results)
    ∧ fit_raw_data ds' node = Some (fit', results)
    ∧ ∀ qp, results !! qp
            = if decide (qp ∈ qps) then Some {| success := true |} else None.
Proof.
  intros H H'. do 3 eexists. rewrite !fit_raw_data_unfold, H, H'. simpl.
  split; [reflexivity|]. split; [reflexivity|].
  intros qp. by rewrite fit_results_fold_lookup, lookup_empty.
Qed.

End AnalysisFacts.

Section AnalysisExamples.
Import Py Analysis.
Local Open Scope Q_scope.

Lemma fit_always_reports_success_witness :
  dict_get "qubit_pair" (coords ds_states) = Some ["q1-q2"; "q2-q3"]
  ∧ ∃ fit results, fit_raw_data ds_states tt = Some (fit, results)
      ∧ results !! "q2-q3" = Some {| success := true |}.
Proof.
  split; [reflexivity|].
  destruct (fit_always_reports_success ds_states tt ["q1-q2"; "q2-q3"] eq_refl)
    as [_ (fit & results & Hfit & Hin & _)].
  exists fit, results. split; [exact Hfit|].
  apply Hin. apply list_elem_of_In. simpl. tauto.
Defined.

Lemma fit_results_depend_on_labels_only_witness :
  ∃ fit fit' results,
    fit_raw_data ds_flat tt = Some (fit, results)
    ∧ fit_raw_data ds_swing tt = Some (fit', results).
Proof.
  destruct (fit_results_depend_on_labels_only ds_flat ds_swing tt ["q1-q2"]
              eq_refl eq_refl) as (fit & fit' & results & H1 & H2 & _).
  exists fit, fit', results. split; [exact H1 | exact H2].
Defined.

(** C2, as stated, fails.  The flat trace and the swinging trace differ, yet
    the fit results of both are the single entry
    [FitParameters(success=True)], and no reading of an amplitude (or a
    phase) off these results can tell the two apart. *)
Lemma fit_results_carry_no_amplitude_or_phase :
  data_vars ds_flat ≠ data_vars ds_swing
  ∧ snd <$> fit_raw_data ds_flat tt = Some {[ "q1-q2" := {| success := true |} ]}
  ∧ snd <$> fit_raw_data ds_swing tt = Some {[ "q1-q2" := {| success := true |} ]}
  ∧ ¬ (∃ (parameter : FitParameters → Q) ra rb,
         (snd <$> fit_raw_data ds_flat tt) ≫= (.!! "q1-q2") = Some ra
         ∧ (snd <$> fit_raw_data ds_swing tt) ≫= (.!! "q1-q2") = Some rb
         ∧ parameter ra ≠ parameter rb).
Proof.
  split; [discriminate|].
  split; [reflexivity|]. split; [reflexivity|].
  intros (parameter & ra & rb & Ha & Hb & Hne).
  apply Hne. f_equal.
  assert (Ha' : Some ra = Some {| success := true |}) by (rewrite <- Ha; reflexivity).
  assert (Hb' : Some rb = Some {| success := true |}) by (rewrite <- Hb; reflexivity).
  congruence.
Qed.

End AnalysisExamples.

Section PhaseAndFactor.
Import Qua PowerRabiEF.
Local Open Scope R_scope.

Lemma Rltb_true (x y : R) : x < y → Rltb x y = true.
Proof. intros H. unfold Rltb. destruct (Rlt_dec x y); [reflexivity | contradiction]. Qed.

Lemma Rltb_false (x y : R) : ¬ x < y → Rltb x y = false.
Proof. intros H. unfold Rltb. destruct (Rlt_dec x y); [contradiction | reflexivity]. Qed.

Lemma adjust_phase_above (phi : R) : PI / 2 < phi → adjust_phase phi = phi - PI.
Proof.
  intros H. unfold adjust_phase, Rgtb. rewrite Rltb_true by exact H.
  unfold bool_to_R. lra.
Qed.

Lemma adjust_phase_below (phi : R) : phi <= PI / 2 → adjust_phase phi = phi.
Proof.
  intros H. unfold adjust_phase, Rgtb. rewrite Rltb_false by lra.
  unfold bool_to_R. lra.
Qed.

(** Where the adjustment does what its comment asks for. *)
Lemma adjust_phase_in_range (phi : R) :
  - PI / 2 <= phi <= 3 * PI / 2 →
  - PI / 2 <= adjust_phase phi <= PI / 2.
Proof.
  intros [Hlo Hhi]. destruct (Rlt_dec (PI / 2) phi) as [H|H].
  - rewrite adjust_phase_above by exact H. lra.
  - rewrite adjust_phase_below by lra. lra.
Qed.

(** C8 at the fitted phase [-3]: it is not above [pi/2], so it is left as
    it is, below [-pi/2]. *)
Theorem adjust_phase_minus_three_out_of_range :
  adjust_phase (-3) = -3 ∧ ¬ (- PI / 2 <= adjust_phase (-3) <= PI / 2).
Proof.
  pose proof PI_4 as Hpi. pose proof PI_RGT_0 as Hpos.
  assert (H : adjust_phase (-3) = -3) by (apply adjust_phase_below; lra).
  split; [exact H|]. rewrite H. intros [Hlo _]. lra.
Qed.

Lemma adjust_phase_spec (phi : R) : adjust_phase phi = adjusted_phase_spec phi.
Proof.
  unfold adjusted_phase_spec. destruct (Rlt_dec (PI / 2) phi) as [H|H].
  - by apply adjust_phase_above.
  - apply adjust_phase_below. lra.
Qed.

Lemma factor_nonzero (f phi : R) : f ≠ 0 → factor f phi = Some (factor_spec f phi).
Proof.
  intros Hf. unfold factor, factor_spec.
  destruct (Req_dec_T (2 * PI * f) 0) as [H0|_].
  - exfalso. pose proof PI_RGT_0.
    destruct (Rmult_integral _ _ H0) as [H1|H1]; [lra | exact (Hf H1)].
  - rewrite adjust_phase_spec. f_equal. lra.
Qed.

Lemma factor_zero (phi : R) : factor 0 phi = None.
Proof.
  unfold factor. destruct (Req_dec_T (2 * PI * 0) 0) as [_|H]; [reflexivity|].
  exfalso. apply H. lra.
Qed.

(** At the factor, the fitted oscillation [cos(2 pi f x + phi)] has turned
    by exactly [pi]. *)
Lemma factor_spec_half_turn (f phi : R) :
  f ≠ 0 → 2 * PI * f * factor_spec f phi + adjusted_phase_spec phi = PI.
Proof.
  intros Hf. unfold factor_spec. pose proof PI_RGT_0. field_simplify; lra.
Qed.

(** C4.  For a qubit with the operation defined and a fitted frequency
    [f <> 0], the factor is [(pi - phi') / (2 pi f)] with [phi'] the fitted
    phase less [pi] when it exceeds [pi/2]; the candidate amplitude is the
    operation's amplitude times that factor, and it is the candidate the
    analysis then clamps and stores. *)
Theorem factor_and_new_pi_amp (operation : string) (fit : string → FitVals)
    (machine : QuAM.t) (fit_results : gmap string R) (q : string)
    (qubit : Qubit.t) (p : Pulse.t) :
  QuAM.qubits machine !! q = Some qubit →
  Channel.operations (Qubit.xy qubit) !! operation = Some p →
  fit_f (fit q) ≠ 0 →
  factor (fit_f (fit q)) (fit_phi (fit q))
    = Some (factor_spec (fit_f (fit q)) (fit_phi (fit q)))
  ∧ new_pi_amp (Pulse.amplitude p) (factor (fit_f (fit q)) (fit_phi (fit q)))
    = Some (Pulse.amplitude p * factor_spec (fit_f (fit q)) (fit_phi (fit q)))
  ∧ analyse_qubit operation fit machine fit_results q
    = Some (<[q := Pi_amplitude
                     (Some (Pulse.amplitude p
                            * factor_spec (fit_f (fit q)) (fit_phi (fit q))))]>
              fit_results).
Proof.
  intros Hq Hp Hf. rewrite (factor_nonzero _ _ Hf).
  split; [reflexivity|]. split; [reflexivity|].
  unfold analyse_qubit. rewrite Hq. simpl. rewrite Hp. simpl.
  by rewrite (factor_nonzero _ _ Hf).
Qed.

(** The clamp, case by case. *)
Lemma Pi_amplitude_in_bounds (x : R) : Rabs x < 3 / 10 → Pi_amplitude (Some x) = x.
Proof. intros H. unfold Pi_amplitude. by rewrite Rltb_true. Qed.

Lemma Pi_amplitude_clamped (x : R) : ¬ Rabs x < 3 / 10 → Pi_amplitude (Some x) = 3 / 10.
Proof. intros H. unfold Pi_amplitude. by rewrite Rltb_false. Qed.

Lemma Pi_amplitude_bounded (new : option R) : Rabs (Pi_amplitude new) <= 3 / 10.
Proof.
  destruct new as [x|]; simpl.
  - unfold Rltb. destruct (Rlt_dec (Rabs x) (3 / 10)); [lra|].
    rewrite Rabs_right; lra.
  - rewrite Rabs_right; lra.
Qed.

End PhaseAndFactor.

Section Sweep.
Import Qua PowerRabiEF.
Local Open Scope Q_scope.

Example amps_default_length :
  length <$> amps default_parameters = Some 300%nat.
Proof. vm_compute. reflexivity. Qed.

(** With the default parameters each of the 300 pre-factors is inside
    [[-2, 2)]. *)
Example amps_default_within_range :
  forallb within_hardware_range <$> amps default_parameters = Some true.
Proof. vm_compute. reflexivity. Qed.

(** Sweeping from 0 to 3 in steps of 1 generates the pre-factor 2, which is
    outside [[-2, 2)]. *)
Lemma amps_wide_out_of_range :
  amps wide_parameters = Some [0; 1; 2]
  ∧ ¬ (∀ x, x ∈ [0; 1; 2] → -2 <= x ∧ x < 2).
Proof.
  split; [reflexivity|].
  intros H. destruct (H 2) as [_ Hlt].
  - apply list_elem_of_In. simpl. tauto.
  - revert Hlt. apply Qle_not_lt. apply Qle_refl.
Qed.

(** C10.  The sweep is not confined to [[-2, 2)], not even by parameters
    taken from that interval: from 1.7 to 2.0 in steps of 0.1 the script
    generates four pre-factors, and the last of them is 2. *)
Theorem amps_reach_two :
  ∃ l, amps edge_parameters = Some l
       ∧ length l = 4%nat
       ∧ last l = Some 2
       ∧ forallb within_hardware_range l = false.
Proof. eexists. repeat split; vm_compute; reflexivity. Qed.

End Sweep.

Section SweepInBinary64.
Import PrimFloat.
Local Open Scope float_scope.

(** The doubles numpy returns from 1.7 to 2.0 in steps of 0.1, and from 2.0
    down to 1.7 in steps of -0.1: the stop is reached in the first, passed
    in the second. *)
Example arange_ascending_example :
  Binary64.arange 1.7 2.0 0.1 = Some [1.7; 1.8; 1.9000000000000001; 2.0].
Proof. vm_compute. reflexivity. Qed.

Example arange_descending_example :
  Binary64.arange 2.0 1.7 (-0.1)
  = Some [2.0; 1.8999999999999999; 1.7999999999999998; 1.6999999999999997].
Proof. vm_compute. reflexivity. Qed.

End SweepInBinary64.

Section Interpreter.
Import Qua PowerRabiEF.
Variable demod : nat → Q * Q.

Lemma exec_For (v : Var) (lo hi : Z) (b : list Stmt) (st : State) :
  exec demod (For v lo hi b) st
  = fold_left (fun st k => exec_block demod b (set_var v (inject_Z k) st))
      (seqZ lo (hi - lo)) st.
Proof. reflexivity. Qed.

Lemma exec_ForEach (v : Var) (xs : list Q) (b : list Stmt) (st : State) :
  exec demod (ForEach v xs b) st
  = fold_left (fun st x => exec_block demod b (set_var v x st)) xs st.
Proof. reflexivity. Qed.

Lemma exec_block_cons (s : Stmt) (b : list Stmt) (st : State) :
  exec_block demod (s :: b) st = exec_block demod b (exec demod s st).
Proof. reflexivity. Qed.

Lemma exec_align (st : State) : exec demod align st = emit EvAlign st.
Proof. reflexivity. Qed.

Lemma exec_block_two (s1 s2 : Stmt) (st : State) :
  exec_block demod [s1; s2] st = exec demod s2 (exec demod s1 st).
Proof. reflexivity. Qed.

Lemma exec_block_app (b1 b2 : list Stmt) (st : State) :
  exec_block demod (b1 ++ b2) st = exec_block demod b2 (exec_block demod b1 st).
Proof. unfold exec_block. apply fold_left_app. Qed.

Lemma step_of_fold {X : Type} (f : X → State → State) (E : X → list Event)
    (k : nat) (O : X → nat → Stream → list Q) (xs : list X) :
  (∀ x, x ∈ xs → step_of (f x) (E x) k (O x)) →
  step_of (fun st => fold_left (fun st x => f x st) xs st)
    (flat_map E xs) (length xs * k)
    (fun k0 s => concat (imap (fun j x => O x (k0 + j * k)%nat s) xs)).
Proof.
  induction xs as [|x xs IH] using rev_ind; intros Hf st.
  - simpl. rewrite app_nil_r, Nat.add_0_r. split; [done|]. split; [done|].
    intros s. by rewrite app_nil_r.
  - rewrite fold_left_app. simpl.
    assert (Hxs : ∀ y, y ∈ xs → step_of (f y) (E y) k (O y)).
    { intros y Hy. apply Hf. apply elem_of_app. by left. }
    assert (Hx : step_of (f x) (E x) k (O x)).
    { apply Hf. apply elem_of_app. right. apply list_elem_of_here. }
    destruct (IH Hxs st) as (Ht & Hs & Hstr).
    destruct (Hx (fold_left (fun st x => f x st) xs st)) as (Ht' & Hs' & Hstr').
    split; [|split].
    + rewrite Ht', Ht, flat_map_app. simpl. by rewrite app_nil_r, app_assoc.
    + rewrite Hs', Hs, length_app. simpl. lia.
    + intros s. rewrite Hstr', Hstr, Hs, imap_app, concat_app. simpl.
      rewrite app_nil_r, Nat.add_0_r, <- app_assoc. repeat f_equal; lia.
Qed.

Lemma step_of_seq (f g : State → State) (E1 E2 : list Event) (k1 k2 : nat)
    (O1 O2 : nat → Stream → list Q) :
  step_of f E1 k1 O1 → step_of g E2 k2 O2 →
  step_of (fun st => g (f st)) (E1 ++ E2) (k1 + k2)
    (fun k0 s => O1 k0 s ++ O2 (k0 + k1)%nat s).
Proof.
  intros Hf Hg st. destruct (Hf st) as (Ht & Hs & Hstr).
  destruct (Hg (f st)) as (Ht' & Hs' & Hstr').
  split; [|split].
  - by rewrite Ht', Ht, app_assoc.
  - rewrite Hs', Hs. lia.
  - intros s. by rewrite Hstr', Hstr, Hs, app_assoc.
Qed.

Lemma step_of_ext (f g : State → State) (E : list Event) (k : nat)
    (O : nat → Stream → list Q) :
  (∀ st, f st = g st) → step_of f E k O → step_of g E k O.
Proof. intros Hfg Hf st. rewrite <- Hfg. apply Hf. Qed.

(** One amplitude point. *)
Lemma sweep_point_step (operation : string) (thermalization : Z) (i : nat)
    (qubit : Qubit.t) (x : Q) :
  step_of (fun st => exec_block demod (sweep_point operation thermalization i qubit)
                       (set_var a x st))
    (point_events operation thermalization qubit x) 1 (point_out demod i).
Proof.
  intros st. unfold sweep_point, exec_block, point_events, point_out. simpl.
  split; [|split].
  - rewrite <- !app_assoc. simpl. rewrite !lookup_insert_eq.
    unfold resonator_frequency.
    destruct (decide (Channel.name (Qubit.xy qubit)
                      = Channel.name (Qubit.resonator qubit))) as [Heq|Hne].
    + rewrite <- Heq. by rewrite lookup_insert_eq.
    + rewrite !lookup_insert_ne by done. by rewrite lookup_insert_eq.
  - lia.
  - intros s. rewrite (decide_True (P := I i = I i)) by done.
    rewrite (decide_True (P := Q_ i = Q_ i)) by done.
    destruct (decide (s = Q_st i)) as [HQ|HQ];
      destruct (decide (s = I_st i)) as [HI|HI]; simpl;
      try (subst; discriminate); by rewrite ?app_nil_r.
Qed.

(** The sweep over the amplitudes. *)
Lemma sweep_step (operation : string) (thermalization : Z) (i : nat)
    (qubit : Qubit.t) (amps : list Q) :
  step_of (exec demod (ForEach a amps (sweep_point operation thermalization i qubit)))
    (flat_map (point_events operation thermalization qubit) amps)
    (length amps * 1) (sweep_out demod i amps).
Proof.
  eapply step_of_ext; [intros st; symmetry; apply exec_ForEach|].
  apply (step_of_fold
           (fun x st => exec_block demod
                          (sweep_point operation thermalization i qubit) (set_var a x st))
           (point_events operation thermalization qubit) 1
           (fun _ => point_out demod i)).
  intros x _. apply sweep_point_step.
Qed.

(** One repetition: [save(n, n_st)], then the sweep. *)
Lemma repetition_step (operation : string) (thermalization : Z) (i : nat)
    (qubit : Qubit.t) (amps : list Q) (r : Z) :
  step_of (fun st => exec_block demod
                       [ save n n_st;
                         ForEach a amps (sweep_point operation thermalization i qubit) ]
                       (set_var n (inject_Z r) st))
    (flat_map (point_events operation thermalization qubit) amps)
    (length amps * 1) (repetition_out demod i amps r).
Proof.
  intros st.
  destruct (sweep_step operation thermalization i qubit amps
              (exec demod (save n n_st) (set_var n (inject_Z r) st)))
    as (Ht & Hs & Hstr).
  cbv beta. rewrite exec_block_two.
  split; [|split].
  - rewrite Ht. reflexivity.
  - rewrite Hs. reflexivity.
  - intros s. rewrite Hstr. unfold repetition_out. simpl.
    destruct (decide (s = n_st)); simpl; by rewrite <- ?app_assoc.
Qed.

(** The block of one qubit: the averaging loop, then [align()]. *)
Lemma qubit_block_step (operation : string) (n_avg : Z) (amps : list Q)
    (thermalization : Z) (i : nat) (qubit : Qubit.t) :
  step_of (exec_block demod (qubit_block operation n_avg amps thermalization i qubit))
    (qubit_events operation n_avg amps thermalization qubit)
    (length (seqZ 0 n_avg) * (length amps * 1))
    (qubit_out demod n_avg amps i).
Proof.
  intros st. unfold qubit_block. rewrite exec_block_two, exec_For.
  rewrite Z.sub_0_r.
  destruct (step_of_fold
              (fun r st => exec_block demod
                 [ save n n_st;
                   ForEach a amps (sweep_point operation thermalization i qubit) ]
                 (set_var n (inject_Z r) st))
              (fun _ => flat_map (point_events operation thermalization qubit) amps)
              (length amps * 1)
              (repetition_out demod i amps) (seqZ 0 n_avg)
              (fun r _ => repetition_step operation thermalization i qubit amps r) st)
    as (Ht & Hs & Hstr).
  rewrite exec_align. unfold emit. cbn [trace shots streams].
  split; [|split].
  - rewrite Ht. unfold qubit_events. by rewrite app_assoc.
  - exact Hs.
  - intros s. rewrite Hstr. reflexivity.
Qed.

(** The whole program: one block per qubit, in order. *)
Lemma program_step (operation : string) (n_avg : Z) (amps : list Q)
    (thermalization : Z) (qubits : list Qubit.t) :
  step_of (exec_block demod
             (body (power_rabi qubits operation n_avg amps thermalization)))
    (flat_map (qubit_events operation n_avg amps thermalization) qubits)
    (length qubits * (length (seqZ 0 n_avg) * (length amps * 1)))
    (fun k0 s =>
       concat (imap (fun i (_ : Qubit.t) =>
                       qubit_out demod n_avg amps i
                         (k0 + i * (length (seqZ 0 n_avg) * (length amps * 1)))%nat s)
                 qubits)).
Proof.
  simpl body.
  induction qubits as [|q qs IH] using rev_ind; intros st.
  - simpl. rewrite app_nil_r, Nat.add_0_r. split; [done|]. split; [done|].
    intros s. by rewrite app_nil_r.
  - rewrite imap_app, concat_app, exec_block_app.
    change (concat (imap (fun j => qubit_block operation n_avg amps thermalization
                                     (length qs + j)) [q]))
      with (qubit_block operation n_avg amps thermalization (length qs + 0) q ++ []).
    rewrite app_nil_r, Nat.add_0_r.
    destruct (IH st) as (Ht & Hs & Hstr).
    destruct (qubit_block_step operation n_avg amps thermalization (length qs) q
                (exec_block demod
                   (concat (imap (qubit_block operation n_avg amps thermalization) qs))
                   st)) as (Ht' & Hs' & Hstr').
    split; [|split].
    + rewrite Ht', Ht, flat_map_app. simpl. by rewrite app_nil_r, app_assoc.
    + rewrite Hs', Hs, length_app. simpl. lia.
    + intros s. rewrite Hstr', Hstr, Hs, imap_app, concat_app. simpl.
      by rewrite app_nil_r, Nat.add_0_r, <- app_assoc.
Qed.

Lemma execute_summary (config : gmap string Z) (operation : string) (n_avg : Z)
    (amps : list Q) (thermalization : Z) (qubits : list Qubit.t) :
  let st := execute demod config
              (power_rabi qubits operation n_avg amps thermalization) in
  trace st = flat_map (qubit_events operation n_avg amps thermalization) qubits
  ∧ shots st = (length qubits * (length (seqZ 0 n_avg) * (length amps * 1)))%nat
  ∧ ∀ s, streams st s
         = concat (imap (fun i (_ : Qubit.t) =>
                           qubit_out demod n_avg amps i
                             (i * (length (seqZ 0 n_avg) * (length amps * 1)))%nat s)
                     qubits).
Proof.
  destruct (program_step operation n_avg amps thermalization qubits
              (initial_state config)) as (Ht & Hs & Hstr).
  split; [exact Ht|]. split; [exact Hs|]. intros s. exact (Hstr s).
Qed.

End Interpreter.

Section ProgramFacts.
Import Qua PowerRabiEF.

Lemma sweep_point_vars (operation : string) (thermalization : Z) (i : nat)
    (qubit : Qubit.t) :
  flat_map stmt_vars (sweep_point operation thermalization i qubit)
  = [a; I i; Q_ i; I i; Q_ i].
Proof. reflexivity. Qed.

(** [npi] and [count] are declared, and that is all: no statement of the
    program reads or writes them, whatever the qubits and the sweep. *)
Lemma npi_count_declared_never_used (qubits : list Qubit.t) (operation : string)
    (n_avg : Z) (amps : list Q) (thermalization : Z) (v : Var) :
  v = npi ∨ v = count →
  v ∈ declared (power_rabi qubits operation n_avg amps thermalization)
  ∧ v ∉ flat_map stmt_vars (body (power_rabi qubits operation n_avg amps thermalization)).
Proof.
  intros Hv. split.
  - simpl. rewrite !elem_of_app. right. right.
    destruct Hv as [-> | ->]; apply list_elem_of_In; simpl; tauto.
  - simpl. intros Hin. apply list_elem_of_In, in_flat_map in Hin
      as (s & Hs & Hvs).
    apply in_concat in Hs as (blk & Hblk & Hs).
    apply list_elem_of_In, elem_of_lookup_imap in Hblk as (i & q & -> & _).
    unfold qubit_block in Hs. simpl in Hs.
    destruct Hs as [<- | [<- | []]]; simpl in Hvs;
      destruct Hv as [-> | ->]; intuition discriminate.
Qed.

(** C1 on one qubit, one repetition and the single pre-factor 1/2: before
    the readout the scaled pulse is played once, not a swept number of
    times. *)
Theorem power_rabi_plays_scaled_pulse_once :
  let st := execute demod_example ∅
              (power_rabi [q1_example] "x180" 1 [1 # 2] 100) in
  trace st
  = [ EvPlay "q1.xy" "x180" None (Some (-50000000)%Z);
      EvPlay "q1.xy" "x180" (Some (1 # 2)) (Some (-250000000)%Z);
      EvAlign;
      EvMeasure "q1.resonator" "readout" (Some 30000000%Z);
      EvWait "q1.resonator" 100;
      EvAlign ]
  ∧ length (filter is_scaled_play (trace st)) = 1%nat
  ∧ length (filter is_measure (trace st)) = 1%nat.
Proof. split; [reflexivity|]. split; reflexivity. Qed.

(** C6.  Every amplitude point [x] of the sweep, from whatever state it
    starts, performs in order: the operation at the native XY intermediate
    frequency, the operation scaled by [x] with the XY frequency lowered by
    the anharmonicity, an align, the readout of the resonator (and the
    thermalisation wait).  The whole run is these points, for each qubit,
    each repetition and each pre-factor in turn, with one more align closing
    each qubit. *)
Theorem sweep_point_sequence (demod : nat → Q * Q) (config : gmap string Z)
    (qubits : list Qubit.t) (operation : string) (n_avg : Z) (amps : list Q)
    (thermalization : Z) :
  (∀ i qubit x st,
     trace (exec_block demod (sweep_point operation thermalization i qubit)
              (set_var a x st))
     = trace st
       ++ [ EvPlay (Channel.name (Qubit.xy qubit)) operation None
              (Some (Channel.intermediate_frequency (Qubit.xy qubit)));
            EvPlay (Channel.name (Qubit.xy qubit)) operation (Some x)
              (Some (Channel.intermediate_frequency (Qubit.xy qubit)
                     - Qubit.anharmonicity qubit)%Z);
            EvAlign;
            EvMeasure (Channel.name (Qubit.resonator qubit)) "readout"
              (Some (resonator_frequency qubit));
            EvWait (Channel.name (Qubit.resonator qubit)) thermalization ])
  ∧ trace (execute demod config
             (power_rabi qubits operation n_avg amps thermalization))
    = flat_map
        (fun qubit =>
           flat_map
             (fun _ : Z => flat_map (point_events operation thermalization qubit) amps)
             (seqZ 0 n_avg)
           ++ [EvAlign])
        qubits.
Proof.
  split.
  - intros i qubit x st.
    destruct (sweep_point_step demod operation thermalization i qubit x st)
      as (Ht & _). exact Ht.
  - destruct (execute_summary demod config operation n_avg amps thermalization qubits)
      as (Ht & _). exact Ht.
Qed.

End ProgramFacts.

Section StreamContents.
Import Qua PowerRabiEF.
Variable demod : nat → Q * Q.

Lemma imap_index_only {A B : Type} (g : nat → B) (xs : list A) :
  imap (fun j _ => g j) xs = List.map g (seq 0 (length xs)).
Proof.
  induction xs as [|x xs IH] using rev_ind; [reflexivity|].
  rewrite imap_app, length_app, seq_app, List.map_app, IH. simpl.
  by rewrite Nat.add_0_r.
Qed.

Lemma concat_singletons {B : Type} (g : nat → B) (l : list nat) :
  concat (List.map (fun j => [g j]) l) = List.map g l.
Proof. induction l as [|j l IH]; simpl; [done | by rewrite IH]. Qed.

Lemma concat_nils {A B : Type} (l : list A) :
  concat (List.map (fun _ => @nil B) l) = [].
Proof. induction l as [|j l IH]; simpl; done. Qed.

Lemma concat_only {B : Type} (i' : nat) (v : nat → list B) (m : nat) :
  concat (List.map (fun i => if decide (i' = i) then v i else []) (seq 0 m))
  = if decide (i' < m)%nat then v i' else [].
Proof.
  induction m as [|m IH]; [by rewrite decide_False by lia|].
  rewrite seq_S, List.map_app, concat_app, IH. simpl. rewrite app_nil_r.
  destruct (decide (i' = m)) as [->|Hne].
  - rewrite decide_False by lia. by rewrite decide_True by lia.
  - rewrite app_nil_r. destruct (decide (i' < m)%nat).
    + by rewrite decide_True by lia.
    + by rewrite decide_False by lia.
Qed.

Lemma point_out_data (b : bool) (i i' k : nat) :
  point_out demod i k (data_stream b i')
  = if decide (i' = i) then [part b (demod k)] else [].
Proof.
  unfold point_out, data_stream, part.
  destruct b; destruct (decide (i' = i)) as [->|Hne].
  - rewrite decide_True by done. by rewrite decide_False by discriminate.
  - rewrite decide_False by congruence. by rewrite decide_False by discriminate.
  - rewrite decide_False by discriminate. by rewrite decide_True by done.
  - rewrite decide_False by discriminate. by rewrite decide_False by congruence.
Qed.

Lemma sweep_out_data (b : bool) (amps : list Q) (i i' k0 : nat) :
  sweep_out demod i amps k0 (data_stream b i')
  = if decide (i' = i)
    then List.map (fun j => part b (demod (k0 + j * 1)%nat)) (seq 0 (length amps))
    else [].
Proof.
  unfold sweep_out.
  rewrite (imap_index_only (fun j => point_out demod i (k0 + j * 1) (data_stream b i'))).
  destruct (decide (i' = i)) as [->|Hne].
  - etrans; [|apply concat_singletons]. f_equal. apply List.map_ext. intros j.
    rewrite point_out_data. by rewrite decide_True.
  - etrans; [|apply (concat_nils (seq 0 (length amps)))]. f_equal.
    apply List.map_ext. intros j. rewrite point_out_data. by rewrite decide_False.
Qed.

Lemma qubit_out_data (b : bool) (n_avg : Z) (amps : list Q) (i i' k0 : nat) :
  qubit_out demod n_avg amps i k0 (data_stream b i')
  = if decide (i' = i)
    then concat
           (List.map
              (fun r => List.map
                          (fun j => part b (demod (k0 + r * (length amps * 1) + j * 1)%nat))
                          (seq 0 (length amps)))
              (seq 0 (length (seqZ 0 n_avg))))
    else [].
Proof.
  unfold qubit_out.
  rewrite (imap_ext _
             (fun j (_ : Z) => sweep_out demod i amps (k0 + j * (length amps * 1))
                                 (data_stream b i'))).
  2:{ intros j r _. unfold repetition_out.
      rewrite decide_False; [reflexivity | destruct b; discriminate]. }
  rewrite imap_index_only.
  destruct (decide (i' = i)) as [->|Hne].
  - f_equal. apply List.map_ext. intros r. rewrite sweep_out_data.
    by rewrite decide_True.
  - etrans; [|apply (concat_nils (seq 0 (length (seqZ 0 n_avg))))]. f_equal.
    apply List.map_ext. intros r. rewrite sweep_out_data. by rewrite decide_False.
Qed.

(** The stream of qubit [i] after the run: its shots, repetition after
    repetition, each repetition in sweep order. *)
Lemma data_stream_contents (b : bool) (config : gmap string Z) (operation : string)
    (n_avg : Z) (amps : list Q) (thermalization : Z) (qubits : list Qubit.t)
    (i : nat) :
  (i < length qubits)%nat →
  streams (execute demod config
             (power_rabi qubits operation n_avg amps thermalization))
    (data_stream b i)
  = concat
      (List.map
         (fun r => List.map
                     (fun j => part b (demod (shot_index (Z.to_nat n_avg)
                                                (length amps) i r j)))
                     (seq 0 (length amps)))
         (seq 0 (Z.to_nat n_avg))).
Proof.
  intros Hi.
  destruct (execute_summary demod config operation n_avg amps thermalization qubits)
    as (_ & _ & Hstr).
  rewrite Hstr, imap_index_only.
  rewrite (List.map_ext _
             (fun i0 => if decide (i = i0)
                        then concat
                               (List.map
                                  (fun r => List.map
                                     (fun j => part b (demod (shot_index (Z.to_nat n_avg)
                                                                (length amps) i0 r j)))
                                     (seq 0 (length amps)))
                                  (seq 0 (Z.to_nat n_avg)))
                        else [])).
  - rewrite concat_only. by rewrite decide_True.
  - intros i0. rewrite qubit_out_data, length_seqZ.
    destruct (decide (i = i0)); [|reflexivity].
    f_equal. apply List.map_ext. intros r. apply List.map_ext. intros j.
    unfold shot_index. do 2 f_equal. lia.
Qed.

End StreamContents.

Section StreamProcessing.
Import Qua PowerRabiEF.
Local Open Scope Q_scope.

Lemma buffer_fill (k : nat) (l cur : list Q) (rest : list Q) :
  l ≠ [] → (length cur + length l = k)%nat →
  buffer_from k cur (List.map (fun x => [x]) (l ++ rest))
  = (cur ++ l) :: buffer_from k [] (List.map (fun x => [x]) rest).
Proof.
  revert cur. induction l as [|x l IH]; intros cur Hne Hlen; [done|].
  simpl. destruct l as [|y l].
  - simpl in *. rewrite length_app. simpl.
    by rewrite (proj2 (Nat.eqb_eq _ _)) by lia.
  - rewrite length_app. simpl in Hlen. simpl length.
    rewrite (proj2 (Nat.eqb_neq _ _)) by lia.
    rewrite IH; [|done|rewrite length_app; simpl; lia].
    by rewrite <- app_assoc.
Qed.

(** [buffer(k)] cuts a stream made of rows of length [k] back into its
    rows. *)
Lemma buffer_rows (k : nat) (rows : list (list Q)) :
  (0 < k)%nat → Forall (fun r => length r = k) rows →
  buffer_from k [] (List.map (fun x => [x]) (concat rows)) = rows.
Proof.
  intros Hk Hrows. induction Hrows as [|r rows Hr _ IH]; [reflexivity|].
  simpl concat. rewrite buffer_fill.
  - by rewrite IH.
  - intros ->. simpl in Hr. lia.
  - simpl. lia.
Qed.

Lemma average_from_last (rest : list (list Q)) (acc : list Q) (cnt : nat) :
  rest ≠ [] →
  last (average_from (Some acc) cnt rest)
  = Some (List.map (fun y => y / inject_Z (Z.of_nat (cnt + length rest)))
            (fold_left vadd rest acc)).
Proof.
  revert acc cnt. induction rest as [|x rest IH]; intros acc cnt Hne; [done|].
  simpl average_from. rewrite last_cons. destruct rest as [|y rest].
  - simpl. by rewrite Nat.add_1_r.
  - rewrite IH by done. simpl fold_left. simpl length.
    by replace (S cnt + S (length rest))%nat with (cnt + S (S (length rest)))%nat by lia.
Qed.

(** [average()] followed by [save]: the sum of the items over their
    number. *)
Lemma average_last (x : list Q) (rest : list (list Q)) :
  last (average_from None 0 (x :: rest))
  = Some (List.map (fun y => y / inject_Z (Z.of_nat (S (length rest))))
            (fold_left vadd rest x)).
Proof.
  simpl average_from. rewrite last_cons. destruct rest as [|y rest]; [reflexivity|].
  by rewrite average_from_last.
Qed.

Lemma vadd_length (u v : list Q) (k : nat) :
  length u = k → length v = k → length (vadd u v) = k.
Proof. intros Hu Hv. unfold vadd. rewrite length_zip_with. lia. Qed.

Lemma vadd_nth (u v : list Q) (j : nat) :
  (j < length u)%nat → (j < length v)%nat →
  nth j (vadd u v) 0 = nth j u 0 + nth j v 0.
Proof.
  revert v j. induction u as [|a u IH]; intros [|b v] [|j] Hu Hv;
    simpl in *; try lia; [reflexivity|].
  apply IH; lia.
Qed.

Lemma vsum_length (rows : list (list Q)) (acc : list Q) (k : nat) :
  Forall (fun r => length r = k) rows → length acc = k →
  length (fold_left vadd rows acc) = k.
Proof.
  intros Hrows. revert acc. induction Hrows as [|r rows Hr _ IH]; intros acc Hacc.
  - exact Hacc.
  - simpl. apply IH. by apply vadd_length.
Qed.

Lemma vsum_nth (rows : list (list Q)) (acc : list Q) (k j : nat) :
  Forall (fun r => length r = k) rows → length acc = k → (j < k)%nat →
  nth j (fold_left vadd rows acc) 0
  == nth j acc 0 + Qsum (List.map (fun r => nth j r 0) rows).
Proof.
  intros Hrows. revert acc. induction Hrows as [|r rows Hr _ IH]; intros acc Hacc Hj.
  - simpl. ring.
  - simpl. rewrite IH by (try apply vadd_length; done).
    rewrite vadd_nth by lia. ring.
Qed.

Lemma nth_map_seq (g : nat → Q) (k j : nat) (d : Q) :
  (j < k)%nat → nth j (List.map g (seq 0 k)) d = g j.
Proof.
  intros Hj. rewrite (nth_indep _ d (g 0%nat)) by (by rewrite length_map, length_seq).
  rewrite map_nth, seq_nth by done. reflexivity.
Qed.

Lemma nth_map_div (l : list Q) (c : Q) (j : nat) :
  (j < length l)%nat →
  nth j (List.map (fun y => y / c) l) 0 = nth j l 0 / c.
Proof.
  intros Hj. rewrite (nth_indep _ 0 (0 / c)) by (by rewrite length_map).
  apply (map_nth (fun y => y / c)).
Qed.

(** C7.  For each qubit of the run, with at least one repetition and a
    non-empty sweep, the program registers the pipeline
    [I_st[i].buffer(len(amps)).average().save("I<i+1>")] (and the same for
    Q); run on the stream the program produced, it saves one value per
    swept amplitude, and the value at amplitude point [j] is the mean over
    all [num_averages] repetitions of the readouts taken at that point. *)
Theorem saved_trace_is_average_over_repetitions (b : bool) (demod : nat → Q * Q)
    (config : gmap string Z) (operation : string) (n_avg : Z) (amps : list Q)
    (thermalization : Z) (qubits : list Qubit.t) (i : nat) :
  (i < length qubits)%nat → (0 < n_avg)%Z → amps ≠ [] →
  data_pipeline b amps i
    ∈ stream_processing (power_rabi qubits operation n_avg amps thermalization)
  ∧ ∃ v,
      run_pipeline (data_pipeline b amps i)
        (streams (execute demod config
                    (power_rabi qubits operation n_avg amps thermalization)))
      = Some v
      ∧ length v = length amps
      ∧ ∀ j, (j < length amps)%nat →
          ∃ x, v !! j = Some x
               ∧ x == mean_over_repetitions (part b) demod
                        (Z.to_nat n_avg) (length amps) i j.
Proof.
  intros Hi Hn Hamps. split.
  - simpl. right. apply list_elem_of_In, in_concat.
    destruct (lookup_lt_is_Some_2 qubits i Hi) as [q Hq].
    exists (qubit_pipelines amps i). split.
    + apply list_elem_of_In, elem_of_lookup_imap. by exists i, q.
    + destruct b; simpl; tauto.
  - unfold run_pipeline. simpl source. simpl operators. simpl fold_left.
    rewrite data_stream_contents by exact Hi.
    assert (Hlen : (0 < length amps)%nat) by (destruct amps; simpl; [done | lia]).
    rewrite buffer_rows; [|exact Hlen|].
    2:{ apply Forall_forall. intros r Hr.
        apply list_elem_of_In, in_map_iff in Hr as (r0 & <- & _).
        by rewrite length_map, length_seq. }
    unfold mean_over_repetitions.
    destruct (Z.to_nat n_avg) as [|N] eqn:HN; [lia|].
    set (f := fun r j => part b (demod (shot_index (S N) (length amps) i r j))).
    set (row := fun r => List.map (f r) (seq 0 (length amps))).
    change (seq 0 (S N)) with (0%nat :: seq 1 N). simpl List.map.
    rewrite average_last, length_map, length_seq.
    assert (Hrows : Forall (fun r => length r = length amps) (List.map row (seq 1 N))).
    { apply Forall_forall. intros r Hr.
      apply list_elem_of_In, in_map_iff in Hr as (r0 & <- & _).
      unfold row. by rewrite length_map, length_seq. }
    assert (Hrow0 : length (row 0%nat) = length amps)
      by (unfold row; by rewrite length_map, length_seq).
    pose proof (vsum_length _ _ _ Hrows Hrow0) as Hsum.
    eexists. split; [reflexivity|]. split; [by rewrite length_map|].
    intros j Hj.
    destruct (lookup_lt_is_Some_2
                (List.map (fun y => y / inject_Z (Z.of_nat (S N)))
                   (fold_left vadd (List.map row (seq 1 N)) (row 0%nat))) j) as [x Hx].
    { rewrite length_map. lia. }
    exists x. split; [exact Hx|].
    assert (Hnth : x = nth j (List.map (fun y => y / inject_Z (Z.of_nat (S N)))
                                (fold_left vadd (List.map row (seq 1 N)) (row 0%nat))) 0).
    { rewrite nth_lookup, Hx. reflexivity. }
    rewrite Hnth, nth_map_div by lia.
    rewrite (vsum_nth _ _ _ _ Hrows Hrow0 Hj).
    unfold row at 1. rewrite nth_map_seq by exact Hj.
    rewrite List.map_map.
    rewrite (List.map_ext (fun r => nth j (row r) 0) (fun r => f r j)).
    2:{ intros r. unfold row. by rewrite nth_map_seq. }
    reflexivity.
Qed.

End StreamProcessing.

Section ScriptFacts.
Import Qua PowerRabiEF.

Lemma foldM_nil {A B : Type} (f : B → A → option B) (b : B) :
  foldM f [] b = Some b.
Proof. reflexivity. Qed.

Lemma foldM_failed {A B : Type} (f : B → A → option B) (l : list A) :
  fold_left (fun acc x => acc ≫= fun b => f b x) l None = None.
Proof. induction l as [|x l IH]; [reflexivity | exact IH]. Qed.

Lemma foldM_cons {A B : Type} (f : B → A → option B) (x : A) (l : list A) (b : B) :
  foldM f (x :: l) b = f b x ≫= foldM f l.
Proof.
  unfold foldM. simpl. destruct (f b x) as [b'|]; [reflexivity|].
  apply foldM_failed.
Qed.

(** *** Selection and initialisation *)

Lemma select_qubits_spec (params : Parameters) (machine : QuAM.t) (qs : list string) :
  select_qubits params machine = Some qs →
  qs = match qubits params with
       | None => QuAM.active_qubits machine
       | Some names => names
       end
  ∧ ∀ q, q ∈ qs → is_Some (QuAM.qubits machine !! q).
Proof.
  unfold select_qubits. intros H. apply mapM_Some in H.
  induction H as [|q q' l l' Hq _ IH]; [split; [done | set_solver]|].
  destruct IH as [-> IH]. destruct (QuAM.qubits machine !! q) as [c|] eqn:Hc;
    [|discriminate]. injection Hq as <-.
  split; [done|]. intros k [->|Hk]%elem_of_cons; [by rewrite Hc | by apply IH].
Qed.

Lemma ensure_GEF_frequency_shift_xy (qubit : Qubit.t) :
  Qubit.xy (ensure_GEF_frequency_shift qubit) = Qubit.xy qubit.
Proof. unfold ensure_GEF_frequency_shift. by destruct (Qubit.GEF_frequency_shift qubit). Qed.

(** Initialising [GEF_frequency_shift] leaves every XY channel as it is. *)
Lemma init_qubits_xy_operations (qs : list string) (machine : QuAM.t) (q : string) :
  xy_operations (init_qubits qs machine) q = xy_operations machine q.
Proof.
  revert machine. induction qs as [|k qs IH]; intros machine; [reflexivity|].
  simpl. rewrite IH. unfold xy_operations. simpl. rewrite lookup_alter.
  case_decide; [subst|reflexivity].
  destruct (QuAM.qubits machine !! q) as [c|]; [|reflexivity]. simpl.
  by rewrite ensure_GEF_frequency_shift_xy.
Qed.

Lemma init_qubits_is_Some (qs : list string) (machine : QuAM.t) (q : string) :
  is_Some (QuAM.qubits machine !! q) →
  is_Some (QuAM.qubits (init_qubits qs machine) !! q).
Proof.
  revert machine. induction qs as [|k qs IH]; intros machine Hq; [exact Hq|].
  simpl. apply IH. simpl. rewrite lookup_alter.
  case_decide; [subst|exact Hq]. destruct Hq as [c ->]. by eexists.
Qed.

(** *** The analysis loop *)

Lemma analyse_qubit_stored (operation : string) (fit : string → FitVals)
    (machine : QuAM.t) (fr : gmap string R) (q : string) :
  analyse_qubit operation fit machine fr q
  = (fun v => <[q := v]> fr) <$> stored_pi_amplitude operation fit machine q.
Proof.
  unfold analyse_qubit, stored_pi_amplitude.
  destruct (QuAM.qubits machine !! q) as [qubit|]; [simpl|reflexivity].
  by destruct (Channel.operations (Qubit.xy qubit) !! operation).
Qed.

Lemma data_analysis_from (operation : string) (fit : string → FitVals)
    (machine : QuAM.t) (qs : list string) (fr0 : gmap string R) :
  (∀ q, q ∈ qs → is_Some (stored_pi_amplitude operation fit machine q)) →
  ∃ fr, foldM (analyse_qubit operation fit machine) qs fr0 = Some fr
        ∧ ∀ q, fr !! q = if decide (q ∈ qs)
                         then stored_pi_amplitude operation fit machine q
                         else fr0 !! q.
Proof.
  revert fr0. induction qs as [|k qs IH]; intros fr0 Hqs.
  - exists fr0. split; [reflexivity|]. intros q. rewrite decide_False; set_solver.
  - destruct (Hqs k) as [v Hv]; [set_solver|].
    destruct (IH (<[k := v]> fr0)) as (fr & Hfr & Hlook); [set_solver|].
    exists fr. split.
    + rewrite foldM_cons, analyse_qubit_stored, Hv. exact Hfr.
    + intros q. rewrite Hlook. destruct (decide (q ∈ qs)) as [Hin|Hnin].
      * rewrite decide_True; [done | set_solver].
      * destruct (decide (q = k)) as [->|Hne].
        -- rewrite decide_True by set_solver. by rewrite lookup_insert_eq.
        -- rewrite decide_False by (intros [?|?]%elem_of_cons; done).
           by rewrite lookup_insert_ne.
Qed.

Lemma data_analysis_spec (operation : string) (fit : string → FitVals)
    (machine : QuAM.t) (qs : list string) :
  (∀ q, q ∈ qs → is_Some (stored_pi_amplitude operation fit machine q)) →
  ∃ fr, data_analysis operation fit qs machine = Some fr
        ∧ ∀ q, fr !! q = if decide (q ∈ qs)
                         then stored_pi_amplitude operation fit machine q
                         else None.
Proof.
  intros Hqs. destruct (data_analysis_from operation fit machine qs ∅ Hqs)
    as (fr & Hfr & Hlook).
  exists fr. split; [exact Hfr|]. intros q. rewrite Hlook.
  by rewrite lookup_empty.
Qed.

(** *** The update loop *)

Lemma update_operations_idem (operation : string) (pi_amp : R)
    (ops ops' : gmap string Pulse.t) :
  update_operations operation pi_amp ops = Some ops' →
  update_operations operation pi_amp ops' = Some ops'.
Proof.
  unfold update_operations.
  destruct (ops !! ef_operation_name operation) as [ef|] eqn:Hef.
  - intros [= <-]. rewrite lookup_insert_eq. by rewrite insert_insert_eq.
  - destruct (ops !! operation) as [p|]; [simpl|discriminate].
    destruct (Pulse.alpha p) as [al|]; [simpl|discriminate].
    destruct (Pulse.anharmonicity p) as [an|]; [simpl|discriminate].
    intros [= <-]. rewrite lookup_insert_eq. by rewrite insert_insert_eq.
Qed.

Lemma update_operations_total (operation : string) (pi_amp : R)
    (ops : gmap string Pulse.t) :
  calibratable operation ops → is_Some (update_operations operation pi_amp ops).
Proof.
  intros (p & Hp & Hdrag). unfold update_operations.
  destruct (ops !! ef_operation_name operation) as [ef|]; [by eexists|].
  destruct (Hdrag eq_refl) as [[al Hal] [an Han]].
  rewrite Hp. simpl. rewrite Hal. simpl. rewrite Han. simpl. by eexists.
Qed.

(** What the branch leaves behind: the |e> -> |f> operation has the given
    amplitude; it is the freshly built DRAG pulse when there was none, and
    the old pulse with its amplitude replaced otherwise; no other operation
    changes. *)
Lemma update_operations_spec (operation : string) (pi_amp : R)
    (ops ops' : gmap string Pulse.t) :
  update_operations operation pi_amp ops = Some ops' →
  ∃ ef, ops' !! ef_operation_name operation = Some ef
        ∧ Pulse.amplitude ef = pi_amp
        ∧ (∀ k, k ≠ ef_operation_name operation → ops' !! k = ops !! k)
        ∧ match ops !! ef_operation_name operation with
          | None =>
              ∃ p alpha anharmonicity,
                ops !! operation = Some p
                ∧ Pulse.alpha p = Some alpha
                ∧ Pulse.anharmonicity p = Some anharmonicity
                ∧ ef = Pulse.DragCosinePulse pi_amp alpha anharmonicity
                         (Pulse.length p) 0 (Pulse.digital_marker p)
          | Some old => ef = Pulse.set_amplitude pi_amp old
          end.
Proof.
  unfold update_operations.
  destruct (ops !! ef_operation_name operation) as [old|] eqn:Hef.
  - intros [= <-]. eexists. rewrite lookup_insert_eq.
    split; [reflexivity|]. split; [reflexivity|]. split; [|reflexivity].
    intros k Hk. by rewrite lookup_insert_ne.
  - destruct (ops !! operation) as [p|]; [simpl|discriminate].
    destruct (Pulse.alpha p) as [al|] eqn:Hal; [simpl|discriminate].
    destruct (Pulse.anharmonicity p) as [an|] eqn:Han; [simpl|discriminate].
    intros [= <-]. eexists. rewrite lookup_insert_eq.
    split; [reflexivity|]. split; [reflexivity|]. split.
    + intros k Hk. by rewrite lookup_insert_ne.
    + by exists p, al, an.
Qed.

Lemma update_qubit_step (operation : string) (fr : gmap string R)
    (machine : QuAM.t) (k : string) :
  is_Some (updated_operations operation fr machine k) →
  ∃ m1, update_qubit operation fr machine k = Some m1
        ∧ ∀ q, xy_operations m1 q
               = if decide (q = k) then updated_operations operation fr machine k
                 else xy_operations machine q.
Proof.
  unfold updated_operations, update_qubit, xy_operations. intros [ops' H].
  destruct (fr !! k) as [pi_amp|]; [simpl in *|discriminate].
  destruct (QuAM.qubits machine !! k) as [qubit|]; [simpl in *|discriminate].
  rewrite H. simpl. eexists. split; [reflexivity|].
  intros q. simpl. destruct (decide (q = k)) as [->|Hne].
  - by rewrite lookup_insert_eq.
  - by rewrite lookup_insert_ne.
Qed.

Lemma update_state_spec (operation : string) (fr : gmap string R)
    (qs : list string) (machine : QuAM.t) :
  (∀ q, q ∈ qs → is_Some (updated_operations operation fr machine q)) →
  ∃ m', update_state operation fr qs machine = Some m'
        ∧ ∀ q, xy_operations m' q
               = if decide (q ∈ qs) then updated_operations operation fr machine q
                 else xy_operations machine q.
Proof.
  unfold update_state. revert machine.
  induction qs as [|k qs IH]; intros machine Hqs.
  - exists machine. split; [reflexivity|]. intros q. rewrite decide_False; set_solver.
  - destruct (update_qubit_step operation fr machine k) as (m1 & Hm1 & Hxy);
      [set_solver|].
    assert (Hsame : ∀ q, is_Some (updated_operations operation fr machine q) →
              updated_operations operation fr m1 q
              = updated_operations operation fr machine q).
    { intros q [ops' Hq]. unfold updated_operations in Hq |- *.
      destruct (fr !! q) as [pi_amp|] eqn:Hfr; [simpl in Hq |- *|discriminate].
      rewrite Hxy. destruct (decide (q = k)) as [->|Hne]; [|reflexivity].
      unfold updated_operations. rewrite Hfr. simpl.
      destruct (xy_operations machine k) as [ops|]; [simpl in Hq |- *|discriminate].
      rewrite Hq. simpl. by apply update_operations_idem in Hq. }
    destruct (IH m1) as (m' & Hm' & Hxy').
    { intros q Hq. rewrite Hsame; apply Hqs; set_solver. }
    exists m'. split.
    + rewrite foldM_cons, Hm1. exact Hm'.
    + intros q. rewrite Hxy'. destruct (decide (q ∈ qs)) as [Hin|Hnin].
      * rewrite decide_True by set_solver. apply Hsame, Hqs. set_solver.
      * rewrite Hxy. destruct (decide (q = k)) as [->|Hne].
        -- by rewrite decide_True by set_solver.
        -- by rewrite decide_False by (intros [?|?]%elem_of_cons; done).
Qed.

(** *** What a completed pass of the loops went through *)

Lemma update_qubit_Some (operation : string) (fr : gmap string R)
    (m m1 : QuAM.t) (k : string) :
  update_qubit operation fr m k = Some m1 →
  ∃ qubit pi_amp ops',
    QuAM.qubits m !! k = Some qubit
    ∧ fr !! k = Some pi_amp
    ∧ update_operations operation pi_amp (Channel.operations (Qubit.xy qubit))
      = Some ops'
    ∧ m1 = QuAM.set_qubits
             (<[k := Qubit.set_xy (Channel.set_operations ops' (Qubit.xy qubit)) qubit]>
                (QuAM.qubits m)) m.
Proof.
  unfold update_qubit.
  destruct (QuAM.qubits m !! k) as [qubit|]; [simpl|discriminate].
  destruct (fr !! k) as [pi_amp|]; [simpl|discriminate].
  destruct (update_operations _ _ _) as [ops'|] eqn:Hops; [simpl|discriminate].
  intros [= <-]. by exists qubit, pi_amp, ops'.
Qed.

Lemma update_state_cons (operation : string) (fr : gmap string R)
    (k : string) (qs : list string) (m m' : QuAM.t) :
  update_state operation fr (k :: qs) m = Some m' →
  ∃ m1, update_qubit operation fr m k = Some m1
        ∧ update_state operation fr qs m1 = Some m'.
Proof.
  unfold update_state. rewrite foldM_cons.
  destruct (update_qubit operation fr m k) as [m1|]; [|discriminate].
  intros H. by exists m1.
Qed.

Lemma data_analysis_needs (operation : string) (fit : string → FitVals)
    (machine : QuAM.t) (qs : list string) (fr0 fr : gmap string R) (q : string) :
  foldM (analyse_qubit operation fit machine) qs fr0 = Some fr → q ∈ qs →
  is_Some (stored_pi_amplitude operation fit machine q).
Proof.
  revert fr0. induction qs as [|k qs IH]; intros fr0 H Hq;
    [by apply elem_of_nil in Hq|].
  rewrite foldM_cons, analyse_qubit_stored in H.
  destruct (stored_pi_amplitude operation fit machine k) as [vk|] eqn:Hk;
    [simpl in H|discriminate].
  apply elem_of_cons in Hq as [->|Hq]; [by rewrite Hk | by apply (IH _ H)].
Qed.

Lemma update_state_needs (operation : string) (fr : gmap string R)
    (qs : list string) (m m' : QuAM.t) (q : string) :
  update_state operation fr qs m = Some m' → q ∈ qs →
  is_Some (updated_operations operation fr m q).
Proof.
  revert m. induction qs as [|k qs IH]; intros m H Hq; [by apply elem_of_nil in Hq|].
  apply update_state_cons in H as (m1 & Hk & Hrest).
  apply update_qubit_Some in Hk as (qk & pi_amp & ops' & Hqk & Hfr & Hops & ->).
  destruct (decide (q = k)) as [->|Hne].
  - unfold updated_operations, xy_operations. rewrite Hfr, Hqk. simpl. by rewrite Hops.
  - apply elem_of_cons in Hq as [->|Hq]; [done|].
    specialize (IH _ Hrest Hq). unfold updated_operations, xy_operations in *.
    simpl in IH. by rewrite lookup_insert_ne in IH.
Qed.

(** *** The script as a whole *)

Lemma stored_pi_amplitude_xy (operation : string) (fit : string → FitVals)
    (machine : QuAM.t) (q : string) :
  stored_pi_amplitude operation fit machine q
  = ops ← xy_operations machine q;
    p ← ops !! operation;
    Some (Pi_amplitude
            (new_pi_amp (Pulse.amplitude p)
               (factor (fit_f (fit q)) (fit_phi (fit q))))).
Proof.
  unfold stored_pi_amplitude, xy_operations.
  by destruct (QuAM.qubits machine !! q).
Qed.


(** Once the program is built, the script runs to its end on qubits it can
    calibrate. *)
Lemma script_runs (times_u_ns : Z → Z) (params : Parameters)
    (machine0 : QuAM.t) (fit : string → FitVals) (qs : list string)
    (objs : list Qubit.t) (l : list Q) (prog : Program) :
  select_qubits params machine0 = Some qs →
  mapM (fun q => QuAM.qubits (init_qubits qs machine0) !! q) qs = Some objs →
  amps params = Some l →
  build_power_rabi objs (operation params) (num_averages params) l
    (times_u_ns (QuAM.thermalization_time (init_qubits qs machine0))) = Some prog →
  simulate params = false →
  (∀ q, q ∈ qs → ∃ ops, xy_operations machine0 q = Some ops
                        ∧ calibratable (operation params) ops) →
  ∃ fr m',
    script times_u_ns params machine0 fit
    = Some {| program := prog;
              node := {| results_fit := Some fr;
                         outcomes := list_to_map (List.map (fun q => (q, "successful")) qs);
                         machine := Some m' |};
              saved := {| results_fit := Some fr;
                          outcomes := list_to_map (List.map (fun q => (q, "successful")) qs);
                          machine := Some m' |} |}
    ∧ (∀ q, fr !! q
            = if decide (q ∈ qs)
              then stored_pi_amplitude (operation params) fit (init_qubits qs machine0) q
              else None)
    ∧ (∀ q, xy_operations m' q
            = if decide (q ∈ qs)
              then updated_operations (operation params) fr (init_qubits qs machine0) q
              else xy_operations (init_qubits qs machine0) q).
Proof.
  intros Hsel Hobjs Hamps Hbuild Hsim Hwf.
  assert (Hstored : ∀ q, q ∈ qs →
            is_Some (stored_pi_amplitude (operation params) fit
                       (init_qubits qs machine0) q)).
  { intros q Hq. destruct (Hwf q Hq) as (ops & Hops & p & Hp & _).
    rewrite stored_pi_amplitude_xy, init_qubits_xy_operations, Hops. simpl.
    rewrite Hp. by eexists. }
  destruct (data_analysis_spec _ fit _ _ Hstored) as (fr & Hfr & Hlook).
  assert (Hupd : ∀ q, q ∈ qs →
            is_Some (updated_operations (operation params) fr
                       (init_qubits qs machine0) q)).
  { intros q Hq. unfold updated_operations.
    rewrite Hlook, decide_True by done.
    destruct (Hstored q Hq) as [v ->]. simpl.
    destruct (Hwf q Hq) as (ops & Hops & Hcal).
    rewrite init_qubits_xy_operations, Hops. simpl.
    by apply update_operations_total. }
  destruct (update_state_spec _ fr _ _ Hupd) as (m' & Hm' & Hxy).
  exists fr, m'. split; [|split; [exact Hlook | exact Hxy]].
  unfold script. rewrite Hsel. simpl. rewrite Hobjs. simpl. rewrite Hamps. simpl.
  rewrite Hbuild. simpl. rewrite Hsim, Hfr. simpl. rewrite Hm'. reflexivity.
Qed.

(** What a run outside simulation went through. *)
Lemma script_completed (times_u_ns : Z → Z) (params : Parameters)
    (machine0 : QuAM.t) (fit : string → FitVals) (run : Run) :
  script times_u_ns params machine0 fit = Some run →
  simulate params = false →
  ∃ qs objs l prog fr m',
    select_qubits params machine0 = Some qs
    ∧ mapM (fun q => QuAM.qubits (init_qubits qs machine0) !! q) qs = Some objs
    ∧ amps params = Some l
    ∧ build_power_rabi objs (operation params) (num_averages params) l
        (times_u_ns (QuAM.thermalization_time (init_qubits qs machine0))) = Some prog
    ∧ data_analysis (operation params) fit qs (init_qubits qs machine0) = Some fr
    ∧ update_state (operation params) fr qs (init_qubits qs machine0) = Some m'
    ∧ run = {| program := prog;
               node := {| results_fit := Some fr;
                          outcomes := list_to_map (List.map (fun q => (q, "successful")) qs);
                          machine := Some m' |};
               saved := {| results_fit := Some fr;
                           outcomes := list_to_map (List.map (fun q => (q, "successful")) qs);
                           machine := Some m' |} |}.
Proof.
  unfold script. intros H Hsim.
  destruct (select_qubits params machine0) as [qs|]; [simpl in H|discriminate].
  destruct (mapM _ qs) as [objs|] eqn:Hobjs; [simpl in H|discriminate].
  destruct (amps params) as [l|]; [simpl in H|discriminate].
  destruct (build_power_rabi _ _ _ _ _) as [prog|] eqn:Hbuild; [simpl in H|discriminate].
  rewrite Hsim in H.
  destruct (data_analysis _ fit qs _) as [fr|] eqn:Hfr; [simpl in H|discriminate].
  destruct (update_state _ fr qs _) as [m'|] eqn:Hm'; [simpl in H|discriminate].
  injection H as <-. by exists qs, objs, l, prog, fr, m'.
Qed.

(** The program of a run, in simulation or outside it, loops over the sweep
    as [np.arange] returned it. *)
Lemma script_program (times_u_ns : Z → Z) (params : Parameters)
    (machine0 : QuAM.t) (fit : string → FitVals) (run : Run) :
  script times_u_ns params machine0 fit = Some run →
  ∃ qs objs l,
    select_qubits params machine0 = Some qs
    ∧ mapM (fun q => QuAM.qubits (init_qubits qs machine0) !! q) qs = Some objs
    ∧ amps params = Some l
    ∧ program run
      = power_rabi objs (operation params) (num_averages params) l
          (times_u_ns (QuAM.thermalization_time (init_qubits qs machine0))).
Proof.
  unfold script. intros H.
  destruct (select_qubits params machine0) as [qs|] eqn:Hsel; [simpl in H|discriminate].
  destruct (mapM _ qs) as [objs|] eqn:Hobjs; [simpl in H|discriminate].
  destruct (amps params) as [l|] eqn:Hamps; [simpl in H|discriminate].
  unfold build_power_rabi in H.
  destruct (forallb _ objs); [simpl in H|discriminate].
  exists qs, objs, l.
  split; [reflexivity|]. split; [exact Hobjs|]. split; [reflexivity|].
  destruct (simulate params).
  - by injection H as <-.
  - destruct (data_analysis _ fit qs _) as [fr|]; [simpl in H|discriminate].
    destruct (update_state _ fr qs _) as [m'|]; [simpl in H|discriminate].
    by injection H as <-.
Qed.

(** The qubits both loops went through can be calibrated. *)
Lemma completed_calibratable (operation : string) (fit : string → FitVals)
    (machine0 : QuAM.t) (qs : list string) (fr : gmap string R) (m' : QuAM.t) :
  data_analysis operation fit qs (init_qubits qs machine0) = Some fr →
  update_state operation fr qs (init_qubits qs machine0) = Some m' →
  ∀ q, q ∈ qs → ∃ ops, xy_operations machine0 q = Some ops
                       ∧ calibratable operation ops.
Proof.
  intros Hfr Hm' q Hq.
  destruct (data_analysis_needs _ _ _ _ _ _ _ Hfr Hq) as [v Hv].
  rewrite stored_pi_amplitude_xy, init_qubits_xy_operations in Hv.
  destruct (xy_operations machine0 q) as [ops|] eqn:Hops; [simpl in Hv|discriminate].
  exists ops. split; [reflexivity|].
  destruct (ops !! operation) as [p|] eqn:Hp; [|discriminate].
  exists p. split; [exact Hp|]. intros Hef.
  destruct (update_state_needs _ _ _ _ _ _ Hm' Hq) as [ops' Hu].
  unfold updated_operations in Hu. rewrite init_qubits_xy_operations, Hops in Hu.
  destruct (fr !! q) as [pi_amp|]; [simpl in Hu|discriminate].
  unfold update_operations in Hu. rewrite Hef, Hp in Hu. simpl in Hu.
  destruct (Pulse.alpha p); [simpl in Hu|discriminate].
  destruct (Pulse.anharmonicity p); [|discriminate].
  split; by eexists.
Qed.


(** C5.  When the script has run its analysis and completed, then for every
    calibrated qubit the operation ["EF_" + operation] of the final machine
    has the amplitude stored for that qubit by the fit: it is a new
    DragCosinePulse with that amplitude (and the alpha, anharmonicity,
    length and digital marker of [operation], axis angle 0) when the qubit
    had no such operation, and the old operation with only its amplitude
    replaced when it had one; this final machine is the one the node holds
    and saves. *)
Theorem ef_operation_updated_and_saved (times_u_ns : Z → Z) (params : Parameters)
    (machine0 : QuAM.t) (fit : string → FitVals) (qs : list string) (run : Run) :
  script times_u_ns params machine0 fit = Some run →
  simulate params = false →
  select_qubits params machine0 = Some qs →
  ∃ fr m',
    results_fit (node run) = Some fr
    ∧ machine (node run) = Some m'
    ∧ machine (saved run) = Some m'
    ∧ ∀ q, q ∈ qs →
        ∃ ops ops' ef pi_amp,
          xy_operations machine0 q = Some ops
          ∧ xy_operations m' q = Some ops'
          ∧ fr !! q = Some pi_amp
          ∧ ops' !! ef_operation_name (operation params) = Some ef
          ∧ Pulse.amplitude ef = pi_amp
          ∧ match ops !! ef_operation_name (operation params) with
            | None =>
                ∃ p alpha anharmonicity,
                  ops !! operation params = Some p
                  ∧ Pulse.alpha p = Some alpha
                  ∧ Pulse.anharmonicity p = Some anharmonicity
                  ∧ ef = Pulse.DragCosinePulse pi_amp alpha anharmonicity
                           (Pulse.length p) 0 (Pulse.digital_marker p)
            | Some old => ef = Pulse.set_amplitude pi_amp old
            end.
Proof.
  intros Hrun Hsim Hsel.
  destruct (script_completed _ _ _ _ _ Hrun Hsim)
    as (qs' & objs & l & prog & fr0 & m0 & Hsel' & Hobjs & Hamps & Hbuild
        & Hfr0 & Hm0 & _).
  rewrite Hsel in Hsel'. injection Hsel' as <-.
  pose proof (completed_calibratable _ _ _ _ _ _ Hfr0 Hm0) as Hwf.
  destruct (script_runs times_u_ns params machine0 fit qs objs l prog
              Hsel Hobjs Hamps Hbuild Hsim Hwf)
    as (fr & m' & Hrun' & Hlook & Hxy).
  rewrite Hrun in Hrun'. injection Hrun' as ->.
  exists fr, m'.
  split; [reflexivity|]. split; [reflexivity|]. split; [reflexivity|].
  intros q Hq. destruct (Hwf q Hq) as (ops & Hops & Hcal).
  specialize (Hxy q). rewrite decide_True in Hxy by done.
  unfold updated_operations in Hxy.
  specialize (Hlook q). rewrite decide_True in Hlook by done.
  rewrite stored_pi_amplitude_xy, init_qubits_xy_operations, Hops in Hlook.
  destruct Hcal as (p & Hp & Hdrag). simpl in Hlook. rewrite Hp in Hlook.
  simpl in Hlook. rewrite Hlook, init_qubits_xy_operations, Hops in Hxy.
  simpl in Hxy.
  destruct (update_operations_total (operation params)
              (Pi_amplitude (new_pi_amp (Pulse.amplitude p)
                               (factor (fit_f (fit q)) (fit_phi (fit q)))))
              ops) as [ops' Hops'].
  { by exists p. }
  rewrite Hops' in Hxy.
  destruct (update_operations_spec _ _ _ _ Hops') as (ef & Hef & Hamp & _ & Hkind).
  exists ops, ops', ef. eexists.
  split; [exact Hops|]. split; [exact Hxy|]. split; [exact Hlook|].
  split; [exact Hef|]. split; [exact Hamp|]. exact Hkind.
Qed.

End ScriptFacts.

Section Witnesses.
Import Qua PowerRabiEF.

Example pipeline_example :
  run_pipeline (data_pipeline true [1 # 2; 1%Q] 0)
    (streams (execute demod_example ∅
                (power_rabi [q1_example] "x180" 2 [1 # 2; 1%Q] 100)))
  = Some [2 # 2; 4 # 2].
Proof. reflexivity. Qed.

Lemma saved_trace_is_average_over_repetitions_witness :
  ∃ v, run_pipeline (data_pipeline true [1 # 2; 1%Q] 0)
         (streams (execute demod_example ∅
                     (power_rabi [q1_example] "x180" 2 [1 # 2; 1%Q] 100)))
       = Some v
       ∧ length v = 2%nat.
Proof.
  destruct (saved_trace_is_average_over_repetitions true demod_example ∅ "x180" 2
              [1 # 2; 1%Q] 100 [q1_example] 0)
    as [_ (v & Hv & Hlen & _)].
  - simpl. lia.
  - lia.
  - discriminate.
  - exists v. split; [exact Hv | exact Hlen].
Defined.

Example factor_example : factor (2 / 5) 0 = Some (5 / 4)%R.
Proof.
  rewrite factor_nonzero by lra. f_equal. unfold factor_spec, adjusted_phase_spec.
  pose proof PI_RGT_0. destruct (Rlt_dec (PI / 2) 0); [lra|]. field. lra.
Qed.

Example pi_amplitude_kept :
  Pi_amplitude (new_pi_amp (1 / 10) (factor (2 / 5) 0)) = (1 / 10 * (5 / 4))%R.
Proof.
  rewrite factor_example. simpl. apply Pi_amplitude_in_bounds.
  rewrite Rabs_right; lra.
Qed.

Example pi_amplitude_too_high :
  Pi_amplitude (new_pi_amp (1 / 10) (Some 5%R)) = (3 / 10)%R.
Proof. simpl. apply Pi_amplitude_clamped. rewrite Rabs_right; lra. Qed.

Example pi_amplitude_not_finite :
  Pi_amplitude (new_pi_amp (1 / 10) (factor 0 0)) = (3 / 10)%R.
Proof. by rewrite factor_zero. Qed.

Lemma factor_and_new_pi_amp_witness :
  (2 / 5 ≠ 0)%R
  ∧ factor (2 / 5) 0 = Some (factor_spec (2 / 5) 0)
  ∧ new_pi_amp (1 / 10) (factor (2 / 5) 0) = Some (1 / 10 * factor_spec (2 / 5) 0)%R.
Proof.
  assert (Hf : (2 / 5 ≠ 0)%R) by lra.
  split; [exact Hf|].
  destruct (factor_and_new_pi_amp "x180" fit_example machine_example ∅ "q1"
              q1_example x180_example eq_refl eq_refl Hf) as (H1 & H2 & _).
  split; [exact H1 | exact H2].
Defined.

Lemma machine_example_calibratable (q : string) :
  q ∈ ["q1"] →
  ∃ ops, xy_operations machine_example q = Some ops ∧ calibratable "x180" ops.
Proof.
  intros Hq. apply list_elem_of_singleton in Hq. subst q.
  exists {[ "x180" := x180_example ]}. split; [reflexivity|].
  exists x180_example. split; [reflexivity|].
  intros _. split; eexists; reflexivity.
Qed.

Example amps_coarse : amps coarse_parameters = Some [0%Q; 1 # 2].
Proof. vm_compute. reflexivity. Qed.

(** The one-qubit machine goes through the whole script, whatever the fit. *)
Lemma example_script_runs (fit : string → FitVals) :
  ∃ fr m',
    script (fun t => t) coarse_parameters machine_example fit
    = Some {| program := power_rabi [ensure_GEF_frequency_shift q1_example] "x180" 2
                           [0%Q; 1 # 2] 100;
              node := {| results_fit := Some fr;
                         outcomes := {[ "q1" := "successful" ]};
                         machine := Some m' |};
              saved := {| results_fit := Some fr;
                          outcomes := {[ "q1" := "successful" ]};
                          machine := Some m' |} |}
    ∧ (∀ q, fr !! q
            = if decide (q ∈ ["q1"])
              then stored_pi_amplitude "x180" fit (init_qubits ["q1"] machine_example) q
              else None)
    ∧ (∀ q, xy_operations m' q
            = if decide (q ∈ ["q1"])
              then updated_operations "x180" fr (init_qubits ["q1"] machine_example) q
              else xy_operations (init_qubits ["q1"] machine_example) q).
Proof.
  exact (script_runs (fun t => t) coarse_parameters machine_example fit ["q1"]
           [ensure_GEF_frequency_shift q1_example] [0%Q; 1 # 2] _
           eq_refl eq_refl amps_coarse eq_refl eq_refl machine_example_calibratable).
Qed.

Lemma example_script_completes :
  ∃ run, script (fun t => t) coarse_parameters machine_example fit_example = Some run.
Proof. destruct (example_script_runs fit_example) as (fr & m' & H & _). by eexists. Qed.


Lemma ef_operation_updated_and_saved_witness :
  ∃ run m' ops' ef,
    script (fun t => t) coarse_parameters machine_example fit_example = Some run
    ∧ machine (saved run) = Some m'
    ∧ xy_operations m' "q1" = Some ops'
    ∧ ops' !! "EF_x180" = Some ef
    ∧ results_fit (node run) ≫= (.!! "q1") = Some (Pulse.amplitude ef).
Proof.
  destruct example_script_completes as [run Hrun].
  destruct (ef_operation_updated_and_saved (fun t => t) coarse_parameters machine_example
              fit_example ["q1"] run Hrun eq_refl eq_refl)
    as (fr & m' & Hfr & _ & Hsaved & Hq).
  destruct (Hq "q1") as (ops & ops' & ef & pi_amp & _ & Hops' & Hpi & Hef & Hamp & _).
  - apply list_elem_of_singleton. reflexivity.
  - exists run, m', ops', ef. split; [exact Hrun|]. split; [exact Hsaved|].
    split; [exact Hops'|]. split; [exact Hef|].
    rewrite Hfr. simpl. rewrite Hpi, Hamp. reflexivity.
Defined.

(** The whole script on the one-qubit machine: the fit of period 2.5 turns
    the amplitude 0.1 of [x180] into 0.125 for the new [EF_x180], a
    DragCosinePulse with the other fields of [x180]. *)
Example script_example :
  ∃ run m' ops',
    script (fun t => t) coarse_parameters machine_example fit_example = Some run
    ∧ results_fit (node run) ≫= (.!! "q1") = Some (1 / 10 * (5 / 4))%R
    ∧ machine (saved run) = Some m'
    ∧ xy_operations m' "q1" = Some ops'
    ∧ ops' !! "EF_x180"
      = Some (Pulse.DragCosinePulse (1 / 10 * (5 / 4)) 0 200000000 40 0 (Some "ON"))
    ∧ ops' !! "x180" = Some x180_example.
Proof.
  destruct (example_script_runs fit_example) as (fr & m' & Hrun & Hlook & Hxy).
  assert (Hfr : fr !! "q1" = Some (1 / 10 * (5 / 4))%R).
  { rewrite Hlook. rewrite <- pi_amplitude_kept. reflexivity. }
  specialize (Hxy "q1"). unfold updated_operations in Hxy.
  rewrite Hfr in Hxy.
  eexists. exists m'. eexists. split; [exact Hrun|].
  split; [exact Hfr|]. split; [reflexivity|]. split; [exact Hxy|].
  split; reflexivity.
Qed.

End Witnesses.

(* ===================================================================== *)
(** * Part III: further properties of the same code                       *)
(* ===================================================================== *)

Section DictFacts.
Import Py.
Context {V : Type}.

Lemma dict_get_set_eq (k : string) (v : V) (d : list (string * V)) :
  dict_get k (dict_set k v d) = Some v.
Proof.
  induction d as [|[k' v'] d IH]; simpl.
  - by rewrite String.eqb_refl.
  - destruct (String.eqb k k') eqn:E; simpl.
    + by rewrite String.eqb_refl.
    + by rewrite E.
Qed.

Lemma dict_get_set_ne (k k' : string) (v : V) (d : list (string * V)) :
  k ≠ k' → dict_get k' (dict_set k v d) = dict_get k' d.
Proof.
  intros Hne. induction d as [|[k0 v0] d IH]; simpl.
  - by rewrite (proj2 (String.eqb_neq k' k)) by congruence.
  - destruct (String.eqb k k0) eqn:E; simpl.
    + apply String.eqb_eq in E. subst k0.
      by rewrite (proj2 (String.eqb_neq k' k)) by congruence.
    + by rewrite IH.
Qed.

Lemma dict_get_In (k : string) (v : V) (d : list (string * V)) :
  dict_get k d = Some v → In (k, v) d.
Proof.
  induction d as [|[k0 v0] d IH]; simpl; [discriminate|].
  destruct (String.eqb k k0) eqn:E.
  - apply String.eqb_eq in E. intros [= <-]. subst. by left.
  - intros H. right. by apply IH.
Qed.

Lemma dict_set_In (k k' : string) (v v' : V) (d : list (string * V)) :
  In (k, v) (dict_set k' v' d) → (k, v) = (k', v') ∨ In (k, v) d.
Proof.
  induction d as [|[k0 v0] d IH]; simpl.
  - intros [H|[]]. left. congruence.
  - destruct (String.eqb k' k0); simpl.
    + intros [H|H]; [left; congruence | right; by right].
    + intros [H|H]; [right; by left|].
      destruct (IH H) as [?|?]; [by left | right; by right].
Qed.

Lemma dict_set_keys (k : string) (v : V) (d : list (string * V)) :
  List.map fst (dict_set k v d)
  = match dict_get k d with
    | Some _ => List.map fst d
    | None => List.map fst d ++ [k]
    end.
Proof.
  induction d as [|[k0 v0] d IH]; simpl; [reflexivity|].
  destruct (String.eqb k k0) eqn:E; simpl.
  - apply String.eqb_eq in E. by subst.
  - rewrite IH. by destruct (dict_get k d).
Qed.

Lemma dict_update_get (d upd : list (string * V)) (k : string) (v : V) :
  dict_get k (dict_update d upd) = Some v →
  dict_get k d = Some v ∨ In (k, v) upd.
Proof.
  unfold dict_update. revert d. induction upd as [|[k0 v0] upd IH]; intros d; simpl.
  - by left.
  - intros H. destruct (IH _ H) as [Hd|Hin]; [|right; by right].
    destruct (decide (k0 = k)) as [->|Hne].
    + rewrite dict_get_set_eq in Hd. injection Hd as <-. right. by left.
    + rewrite dict_get_set_ne in Hd by done. by left.
Qed.

Lemma dict_update_get_other (d upd : list (string * V)) (k : string) :
  ¬ In k (List.map fst upd) → dict_get k (dict_update d upd) = dict_get k d.
Proof.
  unfold dict_update. revert d. induction upd as [|[k0 v0] upd IH]; intros d Hk; simpl.
  - reflexivity.
  - simpl in Hk. rewrite IH by tauto. apply dict_get_set_ne. tauto.
Qed.

Lemma dict_update_get_is_Some (d upd : list (string * V)) (k : string) :
  is_Some (dict_get k d) ∨ In k (List.map fst upd) →
  is_Some (dict_get k (dict_update d upd)).
Proof.
  unfold dict_update. revert d. induction upd as [|[k0 v0] upd IH]; intros d; simpl.
  - intros [H|[]]. exact H.
  - intros H. apply IH.
    destruct (decide (k0 = k)) as [->|Hne].
    + left. rewrite dict_get_set_eq. by eexists.
    + rewrite dict_get_set_ne by done. destruct H as [H|[H|H]]; tauto.
Qed.

Lemma dict_update_keys_prefix (d upd : list (string * V)) :
  List.map fst d `prefix_of` List.map fst (dict_update d upd).
Proof.
  unfold dict_update. revert d. induction upd as [|[k0 v0] upd IH]; intros d; simpl.
  - reflexivity.
  - etrans; [|apply IH]. rewrite dict_set_keys.
    destruct (dict_get k0 d); [reflexivity | by apply prefix_app_r].
Qed.

End DictFacts.

Section BlochVariables.
Import Py Analysis.
Local Open Scope Q_scope.
Context {Node : Type}.

Lemma string_prefix_app (w s : string) :
  String.prefix w s = true ↔ ∃ t, s = String.append w t.
Proof.
  revert s. induction w as [|c w IH]; intros s; simpl.
  - split; [intros _; by exists s | by destruct s].
  - destruct s as [|c' s]; [split; [discriminate | intros (t & Ht); discriminate]|].
    simpl. destruct (ascii_dec c c') as [->|Hne].
    + split.
      * intros H. apply IH in H as (t & ->). by exists t.
      * intros (t & Ht). apply IH. exists t.
        change (String c' s = String c' (String.append w t)) in Ht. congruence.
    + split; [discriminate|]. intros (t & Ht).
      change (String c' s = String c (String.append w t)) in Ht. congruence.
Qed.

(** How [replace("state", "bloch")] walks a string. *)
Lemma str_replace_state_match (t : string) :
  str_replace (String.append "state" t) "state" "bloch"
  = String.append "bloch" (str_replace t "state" "bloch").
Proof. by destruct t. Qed.

Lemma str_replace_state_skip (c : ascii) (s : string) :
  String.prefix "state" (String c s) = false →
  str_replace (String c s) "state" "bloch"
  = String c (str_replace s "state" "bloch").
Proof. intros H. unfold str_replace. cbn [str_replace_from]. by rewrite H. Qed.

(** A word without the letter b that begins the replaced string began the
    original one: the inserted ["bloch"] starts with b. *)
Lemma prefix_of_replaced (w s : string) :
  (∀ c, In c (list_ascii_of_string w) → c ≠ "b"%char) →
  String.prefix w (str_replace s "state" "bloch") = true →
  String.prefix w s = true.
Proof.
  revert s. induction w as [|c w IH]; intros s Hb; [by destruct s|].
  assert (Hc : c ≠ "b"%char) by (apply Hb; by left).
  destruct s as [|c' s]; [done|].
  destruct (String.prefix "state" (String c' s)) eqn:Hp.
  - apply string_prefix_app in Hp as (t & ->).
    rewrite str_replace_state_match. simpl.
    destruct (ascii_dec c "b"); [done | discriminate].
  - rewrite str_replace_state_skip by done. simpl.
    destruct (ascii_dec c c'); [|discriminate].
    apply IH. intros x Hx. apply Hb. by right.
Qed.

(** The replaced name no longer contains ["state"]. *)
Lemma replaced_has_no_state (s : string) :
  str_contains "state" (str_replace s "state" "bloch") = false.
Proof.
  remember (String.length s) as n eqn:Hn. revert s Hn.
  induction n as [n IH] using lt_wf_ind. intros s ->.
  destruct s as [|c s]; [reflexivity|].
  destruct (String.prefix "state" (String c s)) eqn:Hp.
  - apply string_prefix_app in Hp as (t & Ht). rewrite Ht.
    rewrite str_replace_state_match.
    assert (Hlen : (String.length t < String.length (String c s))%nat).
    { rewrite Ht. lazy [String.append String.length]. lia. }
    specialize (IH _ Hlen t eq_refl). lazy [String.append].
    cbn [str_contains String.prefix]. simpl. exact IH.
  - rewrite str_replace_state_skip by done.
    assert (Hrec : str_contains "state" (str_replace s "state" "bloch") = false).
    { apply (IH (String.length s)); [simpl; lia | reflexivity]. }
    cbn [str_contains]. rewrite Hrec, orb_false_r.
    destruct (String.prefix "state" (String c (str_replace s "state" "bloch")))
      eqn:Hq; [|reflexivity].
    exfalso. cbn [String.prefix] in Hq, Hp.
    destruct (ascii_dec "s" c); [|discriminate].
    apply (prefix_of_replaced "tate") in Hq.
    + congruence.
    + intros x. simpl. intros [<-|[<-|[<-|[<-|[]]]]]; discriminate.
Qed.

Lemma dict_update_get_in {V : Type} (d upd : list (string * V)) (k : string) (v : V) :
  In k (List.map fst upd) → dict_get k (dict_update d upd) = Some v → In (k, v) upd.
Proof.
  unfold dict_update. induction upd as [|[k0 v0] upd IH] using rev_ind; [done|].
  rewrite List.map_app, in_app_iff, fold_left_app. simpl. intros Hk Hget.
  apply in_app_iff. destruct (decide (k0 = k)) as [->|Hne].
  - rewrite dict_get_set_eq in Hget. injection Hget as <-. right. by left.
  - rewrite dict_get_set_ne in Hget by done. left. apply IH; [|done].
    destruct Hk as [Hk|[Hk|[]]]; [done | congruence].
Qed.

Lemma bloch_fold_In (l acc : list (string * list Q)) (k : string) (v : list Q) :
  In (k, v)
    (fold_left
       (fun acc cv =>
          if str_contains "state" (fst cv)
          then dict_set (str_replace (fst cv) "state" "bloch")
                 (List.map (fun x => -2 * x + 1) (snd cv)) acc
          else acc) l acc) →
  In (k, v) acc
  ∨ ∃ col x, In (col, x) l ∧ str_contains "state" col = true
             ∧ k = str_replace col "state" "bloch"
             ∧ v = List.map (fun x => -2 * x + 1) x.
Proof.
  revert acc. induction l as [|[col x] l IH]; intros acc; simpl; [by left|].
  intros H. destruct (IH _ H) as [Hacc|(col' & x' & Hin & Hrest)].
  - destruct (str_contains "state" col) eqn:Hc; [|by left].
    apply dict_set_In in Hacc as [[= -> ->]|Hacc]; [|by left].
    right. exists col, x. split; [by left | done].
  - right. exists col', x'. split; [by right | done].
Qed.

Lemma bloch_variables_In (ds : Dataset) (k : string) (v : list Q) :
  In (k, v) (bloch_variables ds) →
  ∃ col x, In (col, x) (data_vars ds) ∧ str_contains "state" col = true
           ∧ k = str_replace col "state" "bloch"
           ∧ v = List.map (fun x => -2 * x + 1) x.
Proof. intros H. by apply bloch_fold_In in H as [[]|H]. Qed.

Lemma bloch_fold_key (l acc : list (string * list Q)) (k : string) :
  is_Some (dict_get k acc)
  ∨ (∃ col x, In (col, x) l ∧ str_contains "state" col = true
              ∧ k = str_replace col "state" "bloch") →
  is_Some (dict_get k
    (fold_left
       (fun acc cv =>
          if str_contains "state" (fst cv)
          then dict_set (str_replace (fst cv) "state" "bloch")
                 (List.map (fun x => -2 * x + 1) (snd cv)) acc
          else acc) l acc)).
Proof.
  revert acc. induction l as [|[col x] l IH]; intros acc; simpl.
  - intros [H|(col & x & [] & _)]. exact H.
  - intros H. apply IH.
    destruct H as [H|(col' & x' & [[= -> ->]|Hin] & Hc & Hk)].
    + left. destruct (str_contains "state" col); [|done].
      destruct (decide (str_replace col "state" "bloch" = k)) as [->|Hne].
      * rewrite dict_get_set_eq. by eexists.
      * by rewrite dict_get_set_ne.
    + left. rewrite Hc, Hk, dict_get_set_eq. by eexists.
    + right. by exists col', x'.
Qed.

Lemma dict_get_key {V : Type} (k : string) (d : list (string * V)) :
  is_Some (dict_get k d) → In k (List.map fst d).
Proof.
  intros [v Hv]. apply dict_get_In in Hv. apply in_map_iff. by exists (k, v).
Qed.

Lemma fit_raw_data_dataset (ds fit : Dataset) (node : Node)
    (results : gmap string FitParameters) :
  fit_raw_data ds node = Some (fit, results) →
  fit = assign ds (bloch_variables ds).
Proof.
  rewrite fit_raw_data_unfold. destruct (dict_get _ _); [|discriminate].
  by intros [= <- _].
Qed.

(** X1.  The dataset returned by [fit_raw_data] holds, for every variable of
    the input whose name contains ["state"], a variable under the name with
    ["state"] replaced by ["bloch"]; and every variable it holds is either a
    variable of the input, unchanged, or the transform [-2 x + 1] of such a
    state variable. *)
Theorem fit_raw_data_adds_bloch_variables (ds fit : Dataset) (node : Node)
    (results : gmap string FitParameters) :
  fit_raw_data ds node = Some (fit, results) →
  (∀ col x, In (col, x) (data_vars ds) → str_contains "state" col = true →
            is_Some (dict_get (str_replace col "state" "bloch") (data_vars fit)))
  ∧ (∀ k v, dict_get k (data_vars fit) = Some v →
            dict_get k (data_vars ds) = Some v
            ∨ ∃ col x, In (col, x) (data_vars ds)
                       ∧ str_contains "state" col = true
                       ∧ k = str_replace col "state" "bloch"
                       ∧ v = List.map (fun x => -2 * x + 1) x).
Proof.
  intros H. apply fit_raw_data_dataset in H as ->. simpl. split.
  - intros col x Hin Hc. apply dict_update_get_is_Some. right.
    apply dict_get_key. apply bloch_fold_key. right. by exists col, x.
  - intros k v Hget. apply dict_update_get in Hget as [Hd|Hin]; [by left|].
    right. by apply bloch_variables_In.
Qed.

(** X2.  On a dataset none of whose variables has ["state"] in its name,
    [fit_raw_data] adds nothing: it is [_extract_relevant_fit_parameters] on
    the dataset as given. *)
Theorem fit_raw_data_without_state_variables (ds : Dataset) (node : Node) :
  (∀ col x, In (col, x) (data_vars ds) → str_contains "state" col = false) →
  fit_raw_data ds node = _extract_relevant_fit_parameters ds node.
Proof.
  intros Hno. unfold fit_raw_data.
  assert (Hb : bloch_variables ds = []).
  { destruct (bloch_variables ds) as [|[k v] l] eqn:E; [reflexivity|].
    destruct (bloch_variables_In ds k v) as (col & x & Hin & Hc & _).
    - rewrite E. by left.
    - rewrite (Hno col x Hin) in Hc. discriminate. }
  rewrite Hb. by destruct ds.
Qed.

(** X3.  [fit_raw_data] never drops or reorders a variable and never touches
    the coordinates: the variable names of the input are, in order, the first
    names of the returned dataset. *)
Theorem fit_raw_data_keeps_names_and_coords (ds fit : Dataset) (node : Node)
    (results : gmap string FitParameters) :
  fit_raw_data ds node = Some (fit, results) →
  List.map fst (data_vars ds) `prefix_of` List.map fst (data_vars fit)
  ∧ coords fit = coords ds.
Proof.
  intros H. apply fit_raw_data_dataset in H as ->. simpl.
  split; [apply dict_update_keys_prefix | reflexivity].
Qed.

(** X4.  The raw state variables survive: a replaced name never contains
    ["state"] again, so no variable whose name contains ["state"] is
    overwritten by a Bloch variable. *)
Theorem fit_raw_data_keeps_state_variables (ds fit : Dataset) (node : Node)
    (results : gmap string FitParameters) (col : string) :
  fit_raw_data ds node = Some (fit, results) →
  str_contains "state" col = true →
  dict_get col (data_vars fit) = dict_get col (data_vars ds).
Proof.
  intros H Hc. apply fit_raw_data_dataset in H as ->. simpl.
  apply dict_update_get_other. intros Hin.
  apply in_map_iff in Hin as ([k v] & Hk & Hin). simpl in Hk. subst k.
  apply bloch_variables_In in Hin as (col' & x & _ & _ & -> & _).
  rewrite replaced_has_no_state in Hc. discriminate.
Qed.

(** X5.  A Bloch variable of populations is a Bloch component: when the state
    variables of the input hold values in [[0, 1]], every variable stored
    under a replaced name holds values in [[-1, 1]], also when the input
    already had a variable of that name. *)
Theorem bloch_variables_within_unit_interval (ds fit : Dataset) (node : Node)
    (results : gmap string FitParameters) (col : string) (x v : list Q) (y : Q) :
  fit_raw_data ds node = Some (fit, results) →
  (∀ col x y, In (col, x) (data_vars ds) → str_contains "state" col = true →
              In y x → 0 <= y ∧ y <= 1) →
  In (col, x) (data_vars ds) → str_contains "state" col = true →
  dict_get (str_replace col "state" "bloch") (data_vars fit) = Some v →
  In y v → -1 <= y ∧ y <= 1.
Proof.
  intros H Hpop Hin Hc Hget Hy. apply fit_raw_data_dataset in H as ->.
  simpl in Hget. apply dict_update_get_in in Hget.
  - apply bloch_variables_In in Hget as (col' & x' & Hin' & Hc' & _ & ->).
    apply in_map_iff in Hy as (y0 & <- & Hy0).
    destruct (Hpop col' x' y0 Hin' Hc' Hy0). split; lra.
  - apply dict_get_key, bloch_fold_key. right. by exists col, x.
Qed.

(** X6.  The fit results have one entry per distinct label of the
    [qubit_pair] coordinate: repeated labels collapse, nothing else is
    added. *)
Theorem fit_results_keys_are_labels (ds fit : Dataset) (node : Node)
    (results : gmap string FitParameters) :
  fit_raw_data ds node = Some (fit, results) →
  ∃ qps, dict_get "qubit_pair" (coords ds) = Some qps
         ∧ dom results = list_to_set qps.
Proof.
  rewrite fit_raw_data_unfold.
  destruct (dict_get "qubit_pair" (coords ds)) as [qps|]; [|discriminate].
  intros [= _ <-]. exists qps. split; [reflexivity|].
  apply set_eq. intros qp. rewrite elem_of_dom, fit_results_fold_lookup.
  rewrite elem_of_list_to_set.
  destruct (decide (qp ∈ qps)); [by split; [|eexists]|].
  rewrite lookup_empty. split; [by intros [? [=]] | done].
Qed.

End BlochVariables.

Section SelectionFacts.
Import Qua PowerRabiEF.

(** X7.  The qubits are selected exactly when every requested name (the
    parameter's list, or the machine's active qubits when the parameter is
    [None]) is a key of [machine.qubits]; the selection is then the requested
    list itself, in order and with its repetitions.  One unknown name makes
    the selection fail. *)
Theorem select_qubits_iff (params : Parameters) (machine : QuAM.t) (qs : list string) :
  select_qubits params machine = Some qs
  ↔ qs = requested_qubits params machine
    ∧ ∀ q, q ∈ qs → is_Some (QuAM.qubits machine !! q).
Proof.
  split; [apply select_qubits_spec|].
  intros [-> Hall]. unfold select_qubits. fold (requested_qubits params machine).
  apply mapM_Some. induction (requested_qubits params machine) as [|q l IH].
  - constructor.
  - constructor.
    + destruct (Hall q) as [c ->]; [by left | reflexivity].
    + apply IH. intros k Hk. apply Hall. by right.
Qed.

Lemma init_qubits_lookup (qs : list string) (machine : QuAM.t) (q : string) :
  QuAM.qubits (init_qubits qs machine) !! q
  = (if decide (q ∈ qs) then ensure_GEF_frequency_shift else fun c => c)
      <$> QuAM.qubits machine !! q.
Proof.
  unfold init_qubits. revert machine. induction qs as [|k qs IH]; intros machine.
  - cbn [fold_left]. rewrite decide_False by (by intros ?%elem_of_nil).
    by destruct (QuAM.qubits machine !! q).
  - cbn [fold_left]. rewrite IH. cbn [QuAM.qubits QuAM.set_qubits].
    rewrite lookup_alter.
    destruct (decide (q ∈ qs)) as [Hin|Hnin].
    + rewrite (decide_True (P := q ∈ k :: qs)) by (by right).
      destruct (decide (k = q)) as [->|Hne]; [|reflexivity].
      destruct (QuAM.qubits machine !! q) as [c|]; [simpl|reflexivity].
      f_equal. by destruct c as [xy res anh [shift|]].
    + destruct (decide (k = q)) as [->|Hne].
      * rewrite (decide_True (P := q ∈ q :: qs)) by (by left).
        by destruct (QuAM.qubits machine !! q).
      * rewrite (decide_False (P := q ∈ k :: qs))
          by (intros [?|?]%elem_of_cons; congruence).
        by destruct (QuAM.qubits machine !! q).
Qed.

Lemma init_qubits_other_fields (qs : list string) (machine : QuAM.t) :
  QuAM.active_qubits (init_qubits qs machine) = QuAM.active_qubits machine
  ∧ QuAM.thermalization_time (init_qubits qs machine)
    = QuAM.thermalization_time machine.
Proof.
  revert machine. induction qs as [|k qs IH]; intros machine; [done|].
  simpl. destruct (IH (QuAM.set_qubits
                         (alter ensure_GEF_frequency_shift k (QuAM.qubits machine))
                         machine)) as [-> ->]. done.
Qed.

(** X8.  The initialisation of [GEF_frequency_shift] gives every selected
    qubit a shift, 0 when it had none and its own when it had one, and changes
    nothing else: the channels and the anharmonicity of the selected qubits,
    the qubits that are not selected and the rest of the machine stay as they
    are. *)
Theorem init_qubits_sets_missing_shift_only (qs : list string) (machine : QuAM.t)
    (q : string) (qubit : Qubit.t) :
  QuAM.qubits machine !! q = Some qubit →
  (q ∈ qs →
   QuAM.qubits (init_qubits qs machine) !! q
   = Some {| Qubit.xy := Qubit.xy qubit; Qubit.resonator := Qubit.resonator qubit;
             Qubit.anharmonicity := Qubit.anharmonicity qubit;
             Qubit.GEF_frequency_shift :=
               Some (default 0%Z (Qubit.GEF_frequency_shift qubit)) |})
  ∧ (q ∉ qs → QuAM.qubits (init_qubits qs machine) !! q = Some qubit)
  ∧ QuAM.active_qubits (init_qubits qs machine) = QuAM.active_qubits machine
  ∧ QuAM.thermalization_time (init_qubits qs machine)
    = QuAM.thermalization_time machine.
Proof.
  intros Hq. split; [|split; [|apply init_qubits_other_fields]].
  - intros Hin. rewrite init_qubits_lookup, Hq, decide_True by done. simpl.
    f_equal. unfold ensure_GEF_frequency_shift.
    destruct qubit as [xy res anh [shift|]]; reflexivity.
  - intros Hnin. by rewrite init_qubits_lookup, Hq, decide_False.
Qed.

End SelectionFacts.

Section SweepShape.
Import Qua PowerRabiEF.
Local Open Scope Q_scope.






End SweepShape.

Section ProgramShape.
Import Qua PowerRabiEF.

Lemma filter_flat_map_length {A B : Type} (P : B → bool) (f : A → list B)
    (c : nat) (l : list A) :
  (∀ x, length (List.filter P (f x)) = c) →
  length (List.filter P (flat_map f l)) = (length l * c)%nat.
Proof.
  intros Hc. induction l as [|x l IH]; [reflexivity|].
  simpl. rewrite List.filter_app, length_app, IH, Hc. reflexivity.
Qed.

Lemma qubit_events_count (P : Event → bool) (operation : string) (n_avg : Z)
    (amps : list Q) (thermalization : Z) (qubit : Qubit.t) (c : nat) :
  (∀ x, length (List.filter P (point_events operation thermalization qubit x)) = c) →
  P EvAlign = false →
  length (List.filter P (qubit_events operation n_avg amps thermalization qubit))
  = (Z.to_nat n_avg * (length amps * c))%nat.
Proof.
  intros Hc Halign. unfold qubit_events.
  rewrite List.filter_app, length_app. simpl. rewrite Halign. simpl.
  rewrite (filter_flat_map_length P _ (length amps * c)).
  - rewrite length_seqZ. lia.
  - intros _. by apply filter_flat_map_length.
Qed.

(** X13.  In every run the number of scaled plays, of unscaled plays, of
    readouts and of shots are all [len(qubits) * n_avg * len(amps)]: each
    readout comes with exactly one pulse of each kind. *)
Theorem run_has_one_pulse_pair_per_readout (demod : nat → Q * Q)
    (config : gmap string Z) (qubits : list Qubit.t) (operation : string)
    (n_avg : Z) (amps : list Q) (thermalization : Z) :
  let st := execute demod config
              (power_rabi qubits operation n_avg amps thermalization) in
  let points := (length qubits * (Z.to_nat n_avg * length amps))%nat in
  (length (List.filter is_scaled_play (trace st)) = points
   ∧ length (List.filter is_plain_play (trace st)) = points
   ∧ length (List.filter is_measure (trace st)) = points
   ∧ shots st = points).
Proof.
  destruct (execute_summary demod config operation n_avg amps thermalization qubits)
    as (Ht & Hs & _).
  cbv zeta. rewrite Ht, Hs, length_seqZ.
  assert (Hcount : ∀ P : Event → bool,
            (∀ q x, length (List.filter P (point_events operation thermalization q x))
                    = 1%nat) →
            P EvAlign = false →
            length (List.filter P
                      (flat_map (qubit_events operation n_avg amps thermalization) qubits))
            = (length qubits * (Z.to_nat n_avg * length amps))%nat).
  { intros P Hone Halign.
    rewrite (filter_flat_map_length P _ (Z.to_nat n_avg * (length amps * 1))); [lia|].
    intros q. apply qubit_events_count; [apply Hone | exact Halign]. }
  split; [by apply Hcount|]. split; [by apply Hcount|]. split; [by apply Hcount|].
  lia.
Qed.

(** X14.  The QUA variables [npi] and [count] are declared and never used:
    no statement of the program, for any qubits and any sweep, reads or
    writes them. *)
Theorem pulse_counters_are_never_used (qubits : list Qubit.t) (operation : string)
    (n_avg : Z) (amps : list Q) (thermalization : Z) :
  let prog := power_rabi qubits operation n_avg amps thermalization in
  (npi ∈ declared prog) ∧ (count ∈ declared prog)
  ∧ (npi ∉ flat_map stmt_vars (body prog))
  ∧ (count ∉ flat_map stmt_vars (body prog)).
Proof.
  cbv zeta.
  destruct (npi_count_declared_never_used qubits operation n_avg amps thermalization
              npi (or_introl eq_refl)) as [H1 H2].
  destruct (npi_count_declared_never_used qubits operation n_avg amps thermalization
              count (or_intror eq_refl)) as [H3 H4].
  done.
Qed.

Lemma point_out_n (demod : nat → Q * Q) (i k : nat) : point_out demod i k n_st = [].
Proof. reflexivity. Qed.

Lemma qubit_out_n (demod : nat → Q * Q) (n_avg : Z) (amps : list Q) (i k0 : nat) :
  qubit_out demod n_avg amps i k0 n_st = List.map inject_Z (seqZ 0 n_avg).
Proof.
  unfold qubit_out.
  transitivity (concat (imap (fun (_ : nat) (r : Z) => [inject_Z r]) (seqZ 0 n_avg))).
  - f_equal. apply imap_ext. intros j r _. unfold repetition_out, sweep_out.
    rewrite (imap_index_only (fun j0 => point_out demod i (k0 + j * (length amps * 1) + j0 * 1) n_st)).
    rewrite (concat_nils (B := Q)). by rewrite app_nil_r.
  - induction (seqZ 0 n_avg) as [|r l IH] using rev_ind; [reflexivity|].
    rewrite imap_app, concat_app, List.map_app, IH. reflexivity.
Qed.

(** X15.  The stream [n_st] receives, for each qubit in turn, the repetition
    numbers [0, 1, ..., n_avg - 1]; so with qubits to run and [n_avg > 0] the
    value saved as ["n"], which feeds the progress counter, ends at
    [n_avg - 1]. *)
Theorem progress_counter_stream (demod : nat → Q * Q) (config : gmap string Z)
    (qubits : list Qubit.t) (operation : string) (n_avg : Z) (amps : list Q)
    (thermalization : Z) :
  let prog := power_rabi qubits operation n_avg amps thermalization in
  let st := execute demod config prog in
  streams st n_st
  = concat (List.map (fun _ => List.map inject_Z (seqZ 0 n_avg)) qubits)
  ∧ (qubits ≠ [] → (0 < n_avg)%Z →
     {| source := n_st; operators := []; save_tag := "n" |} ∈ stream_processing prog
     ∧ run_pipeline {| source := n_st; operators := []; save_tag := "n" |} (streams st)
       = Some [inject_Z (n_avg - 1)]).
Proof.
  cbv zeta.
  destruct (execute_summary demod config operation n_avg amps thermalization qubits)
    as (_ & _ & Hstr).
  assert (Hn : streams (execute demod config
                          (power_rabi qubits operation n_avg amps thermalization)) n_st
               = concat (List.map (fun _ => List.map inject_Z (seqZ 0 n_avg)) qubits)).
  { rewrite Hstr. clear Hstr. f_equal.
    induction qubits as [|q qs IH] using rev_ind; [reflexivity|].
    rewrite imap_app, List.map_app, IH. simpl. by rewrite qubit_out_n. }
  split; [exact Hn|]. intros Hq Hpos. split; [by left|].
  unfold run_pipeline. simpl. rewrite Hn. clear Hn Hstr.
  destruct qubits as [|q qs _] using rev_ind; [done|].
  rewrite List.map_app, concat_app. simpl. rewrite app_nil_r.
  set (pre := concat (List.map (fun _ => List.map inject_Z (seqZ 0 n_avg)) qs)).
  assert (E : seqZ 0 n_avg = seqZ 0 (n_avg - 1) ++ [(n_avg - 1)%Z]).
  { replace n_avg with ((n_avg - 1) + 1)%Z at 1 by lia.
    rewrite seqZ_app by lia. f_equal. }
  rewrite E, !List.map_app. simpl.
  by rewrite !app_assoc, last_snoc.
Qed.

Lemma map_seq_offset {B : Type} (g : nat → B) (a n : nat) :
  List.map (fun j => g (a + j)%nat) (seq 0 n) = List.map g (seq a n).
Proof.
  induction n as [|n IH]; [reflexivity|].
  by rewrite !seq_S, !List.map_app, IH.
Qed.

Lemma rows_are_a_range {B : Type} (g : nat → B) (base rows cols : nat) :
  concat (List.map (fun r => List.map (fun j => g (base + r * cols + j)%nat) (seq 0 cols))
            (seq 0 rows))
  = List.map g (seq base (rows * cols)).
Proof.
  induction rows as [|rows IH]; [reflexivity|].
  rewrite seq_S, List.map_app, concat_app, IH. simpl. rewrite app_nil_r.
  replace (cols + rows * cols)%nat with (rows * cols + cols)%nat by lia.
  rewrite seq_app, List.map_app. f_equal.
  apply (map_seq_offset g).
Qed.

(** X16.  The I and Q streams of qubit number [i] hold exactly that qubit's
    own shots, the [n_avg * len(amps)] consecutive ones starting at
    [i * n_avg * len(amps)], in the order they were taken: no readout of
    another qubit enters them. *)
Theorem qubit_stream_holds_own_shots (b : bool) (demod : nat → Q * Q)
    (config : gmap string Z) (operation : string) (n_avg : Z) (amps : list Q)
    (thermalization : Z) (qubits : list Qubit.t) (i : nat) :
  (i < length qubits)%nat →
  streams (execute demod config
             (power_rabi qubits operation n_avg amps thermalization))
    (data_stream b i)
  = List.map (fun k => part b (demod k))
      (seq (i * (Z.to_nat n_avg * length amps)) (Z.to_nat n_avg * length amps)).
Proof.
  intros Hi. rewrite data_stream_contents by exact Hi.
  unfold shot_index.
  apply (rows_are_a_range (fun k => part b (demod k))).
Qed.

(** X17.  With [n_avg <= 0] nothing is played or measured: the run consists
    of the closing align of each qubit, no shot is taken, every stream stays
    empty and every pipeline of the program has nothing to save. *)
Theorem no_repetition_no_data (demod : nat → Q * Q) (config : gmap string Z)
    (qubits : list Qubit.t) (operation : string) (n_avg : Z) (amps : list Q)
    (thermalization : Z) :
  (n_avg <= 0)%Z →
  let prog := power_rabi qubits operation n_avg amps thermalization in
  let st := execute demod config prog in
  trace st = List.map (fun _ => EvAlign) qubits
  ∧ shots st = 0%nat
  ∧ (∀ s, streams st s = [])
  ∧ (∀ p, p ∈ stream_processing prog → run_pipeline p (streams st) = None).
Proof.
  intros Hn. cbv zeta.
  destruct (execute_summary demod config operation n_avg amps thermalization qubits)
    as (Ht & Hs & Hstr).
  assert (Hempty : ∀ s, streams (execute demod config
                                   (power_rabi qubits operation n_avg amps thermalization)) s
                        = []).
  { intros s. rewrite Hstr. clear Ht Hs Hstr.
    unfold qubit_out. rewrite seqZ_nil by exact Hn.
    induction qubits as [|q qs IH] using rev_ind; [reflexivity|].
    rewrite imap_app, concat_app, IH. reflexivity. }
  split; [|split; [|split; [exact Hempty|]]].
  - rewrite Ht. unfold qubit_events. rewrite seqZ_nil by exact Hn. simpl.
    clear. induction qubits as [|q qs IH]; [reflexivity|]. simpl. by rewrite IH.
  - rewrite Hs, length_seqZ. lia.
  - intros p _. unfold run_pipeline. rewrite Hempty. simpl.
    induction (operators p) as [|op ops IH]; [reflexivity|].
    simpl. destruct op; exact IH.
Qed.

End ProgramShape.

Section AnalysisNumbers.
Import Qua PowerRabiEF.
Local Open Scope R_scope.

(** X18.  The phase adjustment lands in [[-pi/2, pi/2]] exactly for the fitted
    phases in [[-pi/2, 3 pi/2]]; every other fitted phase stays outside. *)
Theorem adjust_phase_in_range_iff (phi : R) :
  - PI / 2 <= adjust_phase phi <= PI / 2 ↔ - PI / 2 <= phi <= 3 * PI / 2.
Proof.
  pose proof PI_RGT_0 as Hpi.
  destruct (Rlt_dec (PI / 2) phi) as [H|H].
  - rewrite adjust_phase_above by exact H. split; intros [? ?]; split; lra.
  - rewrite adjust_phase_below by lra. split; intros [? ?]; split; lra.
Qed.

(** X19.  When the factor is a number, it is the pre-factor at which the
    fitted oscillation [cos(2 pi f x + phi)] has turned by [pi] from the
    adjusted phase: [2 pi f * factor + phi' = pi]. *)
Theorem factor_is_half_turn (f phi x : R) :
  factor f phi = Some x → 2 * PI * f * x + adjust_phase phi = PI.
Proof.
  unfold factor. destruct (Req_dec_T (2 * PI * f) 0) as [|Hne]; [discriminate|].
  intros [= <-]. pose proof PI_RGT_0 as Hpi.
  assert (Hf : f ≠ 0) by (intros ->; apply Hne; lra).
  field. split; lra.
Qed.

(** X20.  For a positive fitted frequency and a fitted phase in
    [[-pi/2, 3 pi/2]] the factor is a number between a quarter and three
    quarters of the fitted period [1 / f]; in particular it is positive. *)
Theorem factor_between_quarter_periods (f phi : R) :
  0 < f → - PI / 2 <= phi <= 3 * PI / 2 →
  ∃ x, factor f phi = Some x ∧ 1 / (4 * f) <= x <= 3 / (4 * f).
Proof.
  intros Hf Hphi. pose proof PI_RGT_0 as Hpi.
  rewrite factor_nonzero by lra. eexists. split; [reflexivity|].
  unfold factor_spec. rewrite <- adjust_phase_spec.
  destruct (adjust_phase_in_range phi Hphi) as [Hlo Hhi].
  assert (H2 : 0 < 2 * PI * f) by nra.
  assert (H4 : 0 < 4 * f) by lra.
  split.
  - apply (Rmult_le_reg_r (4 * f * (2 * PI * f))); [nra|].
    field_simplify; [|lra|lra]. nra.
  - apply (Rmult_le_reg_r (4 * f * (2 * PI * f))); [nra|].
    field_simplify; [|lra|lra]. nra.
Qed.

(** X21.  A fitted frequency of zero makes the candidate amplitude
    non-finite, and the analysis stores 0.3 for that qubit whatever its
    operation amplitude and fitted phase. *)
Theorem zero_frequency_stores_bound (operation : string) (fit : string → FitVals)
    (machine : QuAM.t) (fit_results : gmap string R) (q : string)
    (qubit : Qubit.t) (p : Pulse.t) :
  QuAM.qubits machine !! q = Some qubit →
  Channel.operations (Qubit.xy qubit) !! operation = Some p →
  fit_f (fit q) = 0 →
  analyse_qubit operation fit machine fit_results q
  = Some (<[q := 3 / 10]> fit_results).
Proof.
  intros Hq Hp Hf. unfold analyse_qubit. rewrite Hq. simpl. rewrite Hp. simpl.
  by rewrite Hf, factor_zero.
Qed.

Lemma data_analysis_entries (operation : string) (fit : string → FitVals)
    (machine : QuAM.t) (qs : list string) (fr0 fr : gmap string R) (q : string) (v : R) :
  foldM (analyse_qubit operation fit machine) qs fr0 = Some fr →
  fr !! q = Some v →
  fr0 !! q = Some v ∨ (q ∈ qs ∧ ∃ new, v = Pi_amplitude new).
Proof.
  revert fr0. induction qs as [|k qs IH]; intros fr0.
  - intros [= <-] Hv. by left.
  - rewrite foldM_cons, analyse_qubit_stored.
    destruct (stored_pi_amplitude operation fit machine k) as [vk|] eqn:Hk;
      [simpl|discriminate].
    intros Hfold Hv. destruct (IH _ Hfold Hv) as [H0|[Hin Hnew]].
    + destruct (decide (k = q)) as [->|Hne].
      * rewrite lookup_insert_eq in H0. injection H0 as <-. right.
        split; [by left|]. unfold stored_pi_amplitude in Hk.
        destruct (QuAM.qubits machine !! q) as [qubit|]; [simpl in Hk|discriminate].
        destruct (Channel.operations (Qubit.xy qubit) !! operation) as [p|];
          [simpl in Hk|discriminate].
        injection Hk as <-. by eexists.
      * rewrite lookup_insert_ne in H0 by done. by left.
    + right. split; [by right | exact Hnew].
Qed.

(** X22.  Every amplitude the analysis records is within the bound: it lies
    in [(-0.3, 0.3]], and the analysis records one only for qubits of the
    list. *)
Theorem recorded_amplitudes_are_bounded (operation : string) (fit : string → FitVals)
    (machine : QuAM.t) (qs : list string) (fr : gmap string R) (q : string) (v : R) :
  data_analysis operation fit qs machine = Some fr →
  fr !! q = Some v →
  q ∈ qs ∧ - (3 / 10) < v <= 3 / 10.
Proof.
  intros Hfr Hv.
  destruct (data_analysis_entries _ _ _ _ _ _ _ _ Hfr Hv) as [H0|[Hin [new ->]]].
  - by rewrite lookup_empty in H0.
  - split; [exact Hin|]. destruct new as [x|]; simpl; [|lra].
    unfold Rltb. destruct (Rlt_dec (Rabs x) (3 / 10)) as [Hlt|]; [|lra].
    apply Rabs_def2 in Hlt. lra.
Qed.


End AnalysisNumbers.

Section UpdateFacts.
Import Qua PowerRabiEF.

Lemma update_state_frame (operation : string)
    (fr : gmap string R) (qs : list string) (m m' : QuAM.t) :
  update_state operation fr qs m = Some m' →
  QuAM.active_qubits m' = QuAM.active_qubits m
  ∧ QuAM.thermalization_time m' = QuAM.thermalization_time m
  ∧ (∀ q, q ∉ qs → QuAM.qubits m' !! q = QuAM.qubits m !! q)
  ∧ (∀ q qubit, QuAM.qubits m !! q = Some qubit →
       ∃ qubit', QuAM.qubits m' !! q = Some qubit'
         ∧ Qubit.resonator qubit' = Qubit.resonator qubit
         ∧ Qubit.anharmonicity qubit' = Qubit.anharmonicity qubit
         ∧ Qubit.GEF_frequency_shift qubit' = Qubit.GEF_frequency_shift qubit
         ∧ Channel.name (Qubit.xy qubit') = Channel.name (Qubit.xy qubit)
         ∧ Channel.intermediate_frequency (Qubit.xy qubit')
           = Channel.intermediate_frequency (Qubit.xy qubit)
         ∧ ∀ k, k ≠ ef_operation_name operation →
                Channel.operations (Qubit.xy qubit') !! k
                = Channel.operations (Qubit.xy qubit) !! k).
Proof.
  revert m. induction qs as [|k qs IH]; intros m H.
  - unfold update_state in H. rewrite foldM_nil in H. injection H as <-.
    split; [done|]. split; [done|]. split; [done|].
    intros q qubit Hq. exists qubit. repeat split; done.
  - apply update_state_cons in H as (m1 & Hk & Hrest).
    apply update_qubit_Some in Hk as (qk & pi_amp & ops' & Hqk & _ & Hops & ->).
    destruct (IH _ Hrest) as (Ha & Ht & Hout & Hin). clear IH.
    apply update_operations_spec in Hops as (ef & _ & _ & Hframe & _).
    split; [exact Ha|]. split; [exact Ht|]. split.
    + intros q Hq. rewrite Hout by (intros ?; apply Hq; by right).
      simpl. apply lookup_insert_ne. intros ->. apply Hq. by left.
    + intros q qubit Hq. destruct (decide (k = q)) as [->|Hne].
      * destruct (Hin q (Qubit.set_xy (Channel.set_operations ops' (Qubit.xy qk)) qk))
          as (qubit' & Hq' & Hr & Han & Hg & Hn & Hf & Hops');
          [simpl; apply lookup_insert_eq|].
        assert (qk = qubit) by congruence. subst qk.
        exists qubit'. split; [exact Hq'|]. repeat split; try done.
        intros k Hk. rewrite Hops' by done. simpl. by apply Hframe.
      * apply Hin. simpl. by rewrite lookup_insert_ne.
Qed.

Lemma update_state_reached (operation : string) (fr : gmap string R)
    (qs : list string) (m m' : QuAM.t) (q : string) :
  update_state operation fr qs m = Some m' → q ∈ qs →
  ∃ qubit' pi_amp ef,
    QuAM.qubits m' !! q = Some qubit'
    ∧ fr !! q = Some pi_amp
    ∧ Channel.operations (Qubit.xy qubit') !! ef_operation_name operation = Some ef
    ∧ Pulse.amplitude ef = pi_amp.
Proof.
  revert m. induction qs as [|k qs IH]; intros m H Hq; [by apply elem_of_nil in Hq|].
  apply update_state_cons in H as (m1 & Hk & Hrest).
  destruct (decide (q ∈ qs)) as [Hin|Hnin]; [by apply (IH m1)|].
  apply elem_of_cons in Hq as [->|Hq]; [|done].
  apply update_qubit_Some in Hk as (qk & pi_amp & ops' & Hqk & Hfr & Hops & ->).
  destruct (update_state_frame _ _ _ _ _ Hrest) as (_ & _ & Hout & _).
  apply update_operations_spec in Hops as (ef & Hef & Hamp & _).
  eexists. exists pi_amp, ef. rewrite Hout by done. simpl.
  rewrite lookup_insert_eq. split; [reflexivity|]. split; [exact Hfr|].
  split; [exact Hef | exact Hamp].
Qed.

(** X24.  The state update changes nothing but the operation
    ["EF_" + operation] of the qubits of the list: their other operations,
    their channel names and frequencies, resonators, anharmonicities and
    shifts, every qubit outside the list and the rest of the machine are as
    before. *)
Theorem update_state_changes_only_ef_operation (operation : string)
    (fr : gmap string R) (qs : list string) (m m' : QuAM.t) :
  update_state operation fr qs m = Some m' →
  QuAM.active_qubits m' = QuAM.active_qubits m
  ∧ QuAM.thermalization_time m' = QuAM.thermalization_time m
  ∧ (∀ q, q ∉ qs → QuAM.qubits m' !! q = QuAM.qubits m !! q)
  ∧ (∀ q qubit, QuAM.qubits m !! q = Some qubit →
       ∃ qubit', QuAM.qubits m' !! q = Some qubit'
         ∧ Qubit.resonator qubit' = Qubit.resonator qubit
         ∧ Qubit.anharmonicity qubit' = Qubit.anharmonicity qubit
         ∧ Qubit.GEF_frequency_shift qubit' = Qubit.GEF_frequency_shift qubit
         ∧ Channel.name (Qubit.xy qubit') = Channel.name (Qubit.xy qubit)
         ∧ Channel.intermediate_frequency (Qubit.xy qubit')
           = Channel.intermediate_frequency (Qubit.xy qubit)
         ∧ ∀ k, k ≠ ef_operation_name operation →
                Channel.operations (Qubit.xy qubit') !! k
                = Channel.operations (Qubit.xy qubit) !! k).
Proof. apply update_state_frame. Qed.

Lemma update_qubit_again (operation : string) (fr : gmap string R) (m : QuAM.t)
    (q : string) (qubit : Qubit.t) (pi_amp : R) (ef : Pulse.t) :
  QuAM.qubits m !! q = Some qubit →
  fr !! q = Some pi_amp →
  Channel.operations (Qubit.xy qubit) !! ef_operation_name operation = Some ef →
  Pulse.amplitude ef = pi_amp →
  update_qubit operation fr m q = Some m.
Proof.
  intros Hq Hfr Hef Hamp. unfold update_qubit, update_operations.
  rewrite Hq. simpl. rewrite Hfr. simpl. rewrite Hef. simpl. f_equal.
  assert (E1 : Pulse.set_amplitude pi_amp ef = ef) by (destruct ef; simpl in *; by subst).
  rewrite E1, (insert_id _ _ _ Hef).
  assert (E2 : Qubit.set_xy
                 (Channel.set_operations (Channel.operations (Qubit.xy qubit))
                    (Qubit.xy qubit)) qubit = qubit)
    by (by destruct qubit as [[] ? ? ?]).
  rewrite E2, (insert_id _ _ _ Hq). by destruct m.
Qed.

(** X25.  The update is idempotent: run again with the same fit results on
    the state it produced, it succeeds and leaves that state as it is. *)
Theorem update_state_idempotent (operation : string) (fr : gmap string R)
    (qs : list string) (m m' : QuAM.t) :
  update_state operation fr qs m = Some m' →
  update_state operation fr qs m' = Some m'.
Proof.
  intros H.
  assert (Hall : ∀ q, q ∈ qs → update_qubit operation fr m' q = Some m').
  { intros q Hq.
    destruct (update_state_reached _ _ _ _ _ _ H Hq)
      as (qubit' & pi_amp & ef & Hq' & Hfr & Hef & Hamp).
    by apply (update_qubit_again _ _ _ _ qubit' pi_amp ef). }
  clear H. unfold update_state. induction qs as [|k qs IH]; [reflexivity|].
  rewrite foldM_cons, Hall by (by left). simpl.
  apply IH. intros q Hq. apply Hall. by right.
Qed.

End UpdateFacts.

Section ScriptErrors.
Import Qua PowerRabiEF.

(** X26.  Outside simulation the script does not complete when one of the
    selected qubits cannot be calibrated: when it lacks [operation]
    ([KeyError]), or has no ["EF_" + operation] yet while [operation] has no
    [alpha] or no [anharmonicity] to build one from ([AttributeError]).
    Nothing is saved then. *)
Theorem script_fails_on_uncalibratable_qubit (times_u_ns : Z → Z)
    (params : Parameters) (machine0 : QuAM.t) (fit : string → FitVals)
    (qs : list string) (q : string) (ops : gmap string Pulse.t) :
  simulate params = false →
  select_qubits params machine0 = Some qs →
  q ∈ qs →
  xy_operations machine0 q = Some ops →
  ¬ calibratable (operation params) ops →
  script times_u_ns params machine0 fit = None.
Proof.
  intros Hsim Hsel Hq Hops Hncal. unfold script. rewrite Hsel. simpl.
  destruct (mapM _ qs) as [objs|]; [simpl|reflexivity].
  destruct (amps params) as [l|]; [simpl|reflexivity].
  destruct (build_power_rabi _ _ _ _ _) as [prog|]; [simpl|reflexivity].
  rewrite Hsim.
  destruct (data_analysis _ fit qs _) as [fr|] eqn:Hfr; [simpl|reflexivity].
  destruct (update_state _ fr qs _) as [m'|] eqn:Hm'; [|reflexivity].
  exfalso. apply Hncal.
  destruct (completed_calibratable _ _ _ _ _ _ Hfr Hm' q Hq) as (ops' & Hops' & Hcal).
  congruence.
Qed.

Lemma amps_zero_step (params : Parameters) :
  (amp_factor_step params == 0)%Q → amps params = None.
Proof.
  intros Hstep.
  assert (Hn : Qnum (amp_factor_step params) = 0%Z).
  { unfold Qeq in Hstep. simpl in Hstep. lia. }
  unfold amps, Binary64.of_Q at 3. rewrite Hn. reflexivity.
Qed.

(** X27.  A requested qubit that the machine does not have, or a sweep step
    of zero, stops the script before any program is built, in simulation and
    outside it alike. *)
Theorem script_rejects_bad_parameters (times_u_ns : Z → Z)
    (params : Parameters) (machine0 : QuAM.t) (fit : string → FitVals) :
  (∃ q, q ∈ requested_qubits params machine0 ∧ QuAM.qubits machine0 !! q = None)
  ∨ (amp_factor_step params == 0)%Q →
  script times_u_ns params machine0 fit = None.
Proof.
  intros [(q & Hq & Hnone)|Hstep]; unfold script.
  - destruct (select_qubits params machine0) as [qs|] eqn:Hsel; [|reflexivity].
    exfalso. apply select_qubits_spec in Hsel as [-> Hall].
    destruct (Hall q Hq) as [c Hc]. congruence.
  - destruct (select_qubits params machine0) as [qs|]; [simpl|reflexivity].
    destruct (mapM _ qs) as [objs|]; [simpl|reflexivity].
    by rewrite (amps_zero_step _ Hstep).
Qed.

(** X28.  In simulation the script records no fit result and no outcome and
    updates no operation: the machine it saves has, for every qubit, the XY
    operations of the machine it was given. *)
Theorem simulation_updates_nothing (times_u_ns : Z → Z)
    (params : Parameters) (machine0 : QuAM.t) (fit : string → FitVals) (run : Run) :
  script times_u_ns params machine0 fit = Some run →
  simulate params = true →
  results_fit (node run) = None
  ∧ outcomes (node run) = ∅
  ∧ saved run = node run
  ∧ ∃ m, machine (saved run) = Some m
         ∧ ∀ q, xy_operations m q = xy_operations machine0 q.
Proof.
  unfold script. intros H Hsim.
  destruct (select_qubits params machine0) as [qs|]; [simpl in H|discriminate].
  destruct (mapM _ qs) as [objs|]; [simpl in H|discriminate].
  destruct (amps params) as [l|]; [simpl in H|discriminate].
  destruct (build_power_rabi _ _ _ _ _) as [prog|]; [simpl in H|discriminate].
  rewrite Hsim in H. injection H as <-. simpl.
  split; [reflexivity|]. split; [reflexivity|]. split; [reflexivity|].
  eexists. split; [reflexivity|]. intros q. apply init_qubits_xy_operations.
Qed.

(** The program cannot be built when one of the qubits does not pass
    [can_build]. *)
Lemma build_power_rabi_needs (qubits : list Qubit.t) (operation : string)
    (n_avg : Z) (amps : list Q) (thermalization : Z) (qubit : Qubit.t) :
  qubit ∈ qubits → can_build operation amps qubit = false →
  build_power_rabi qubits operation n_avg amps thermalization = None.
Proof.
  intros Hin Hq. unfold build_power_rabi.
  destruct (forallb _ qubits) eqn:Hall; [|reflexivity].
  rewrite forallb_forall in Hall. apply list_elem_of_In in Hin.
  rewrite (Hall _ Hin) in Hq. discriminate.
Qed.

(** The objects of the selected qubits, as the program sees them. *)
Lemma selected_object (qs : list string) (machine : QuAM.t)
    (objs : list Qubit.t) (q : string) :
  mapM (fun q => QuAM.qubits machine !! q) qs = Some objs → q ∈ qs →
  ∃ qubit, qubit ∈ objs ∧ QuAM.qubits machine !! q = Some qubit.
Proof.
  intros H Hq. apply mapM_Some in H.
  induction H as [|k obj qs objs Hk _ IH]; [by apply elem_of_nil in Hq|].
  apply elem_of_cons in Hq as [->|Hq].
  - exists obj. split; [by left | exact Hk].
  - destruct (IH Hq) as (qubit & Hin & Hlook).
    exists qubit. split; [by right | exact Hlook].
Qed.

(** X30.  A sweep without points stops the script while it builds the
    program, as soon as one qubit is selected, in simulation and outside it
    alike: [from_array] refuses the empty array. *)
Theorem script_rejects_empty_sweep (times_u_ns : Z → Z)
    (params : Parameters) (machine0 : QuAM.t) (fit : string → FitVals)
    (qs : list string) :
  select_qubits params machine0 = Some qs →
  qs ≠ [] →
  amps params = Some [] →
  script times_u_ns params machine0 fit = None.
Proof.
  intros Hsel Hqs Hamps. unfold script. rewrite Hsel. simpl.
  destruct (mapM _ qs) as [objs|] eqn:Hobjs; [simpl|reflexivity].
  rewrite Hamps. simpl.
  destruct qs as [|q qs]; [done|].
  destruct (selected_object _ _ _ q Hobjs) as (qubit & Hin & _); [by left|].
  by rewrite (build_power_rabi_needs _ _ _ _ _ qubit Hin).
Qed.

(** X31.  A selected qubit whose XY channel lacks [operation] stops the
    script while it builds the program ([KeyError] in [play]), in simulation
    and outside it alike. *)
Theorem script_needs_operation (times_u_ns : Z → Z)
    (params : Parameters) (machine0 : QuAM.t) (fit : string → FitVals)
    (qs : list string) (q : string) (ops : gmap string Pulse.t) :
  select_qubits params machine0 = Some qs →
  q ∈ qs →
  xy_operations machine0 q = Some ops →
  ops !! operation params = None →
  script times_u_ns params machine0 fit = None.
Proof.
  intros Hsel Hq Hops Hnone. unfold script. rewrite Hsel. simpl.
  destruct (mapM _ qs) as [objs|] eqn:Hobjs; [simpl|reflexivity].
  destruct (amps params) as [l|]; [simpl|reflexivity].
  destruct (selected_object _ _ _ q Hobjs Hq) as (qubit & Hin & Hlook).
  rewrite (build_power_rabi_needs _ _ _ _ _ qubit Hin); [reflexivity|].
  rewrite <- (init_qubits_xy_operations qs) in Hops.
  unfold xy_operations in Hops. rewrite Hlook in Hops. injection Hops as Hops.
  unfold can_build. rewrite Hops, Hnone. by destruct (from_array l).
Qed.

End ScriptErrors.

Section Frequencies.
Import Qua PowerRabiEF.
Variable demod : nat → Q * Q.

Lemma retuned_lookup (qubit : Qubit.t) (m : gmap string Z) (e : string) :
  retuned qubit m !! e
  = if decide (e = Channel.name (Qubit.xy qubit))
    then Some (Channel.intermediate_frequency (Qubit.xy qubit)
               - Qubit.anharmonicity qubit)%Z
    else if decide (e = Channel.name (Qubit.resonator qubit))
         then Some (Channel.intermediate_frequency (Qubit.resonator qubit)
                    + default 0%Z (Qubit.GEF_frequency_shift qubit))%Z
         else m !! e.
Proof.
  unfold retuned. destruct (decide (e = Channel.name (Qubit.xy qubit))) as [->|Hxy].
  - by rewrite lookup_insert_eq.
  - rewrite !lookup_insert_ne by done.
    destruct (decide (e = Channel.name (Qubit.resonator qubit))) as [->|Hres].
    + by rewrite lookup_insert_eq.
    + by rewrite lookup_insert_ne.
Qed.

Lemma retuned_idem (qubit : Qubit.t) (m : gmap string Z) :
  retuned qubit (retuned qubit m) = retuned qubit m.
Proof.
  apply map_eq. intros e. rewrite !retuned_lookup.
  by repeat case_decide.
Qed.

Lemma sweep_point_freqs (operation : string) (thermalization : Z) (i : nat)
    (qubit : Qubit.t) (x : Q) (st : State) :
  freqs (exec_block demod (sweep_point operation thermalization i qubit) (set_var a x st))
  = retuned qubit (freqs st).
Proof. reflexivity. Qed.

Lemma fold_retuned {X : Type} (f : X → State → State) (qubit : Qubit.t)
    (xs : list X) (st : State) :
  (∀ x st, freqs (f x st) = retuned qubit (freqs st)) →
  freqs (fold_left (fun st x => f x st) xs st)
  = match xs with [] => freqs st | _ => retuned qubit (freqs st) end.
Proof.
  intros Hf. revert st. induction xs as [|x xs IH]; intros st; [reflexivity|].
  simpl. rewrite IH. destruct xs; [apply Hf|]. by rewrite Hf, retuned_idem.
Qed.

Lemma qubit_block_freqs (operation : string) (n_avg : Z) (amps : list Q)
    (thermalization : Z) (i : nat) (qubit : Qubit.t) (st : State) :
  (0 < n_avg)%Z → amps ≠ [] →
  freqs (exec_block demod (qubit_block operation n_avg amps thermalization i qubit) st)
  = retuned qubit (freqs st).
Proof.
  intros Hn Hamps. unfold qubit_block. rewrite exec_block_two, exec_For, exec_align.
  unfold emit. cbn [freqs]. rewrite Z.sub_0_r.
  rewrite (fold_retuned
             (fun r st => exec_block demod
                [ save n n_st;
                  ForEach a amps (sweep_point operation thermalization i qubit) ]
                (set_var n (inject_Z r) st)) qubit).
  - rewrite seqZ_cons by lia. reflexivity.
  - intros r st'. rewrite exec_block_two, exec_ForEach.
    rewrite (fold_retuned
               (fun x st => exec_block demod
                  (sweep_point operation thermalization i qubit) (set_var a x st))
               qubit).
    + by destruct amps.
    + intros x st''. apply sweep_point_freqs.
Qed.

Lemma program_freqs (config : gmap string Z) (operation : string) (n_avg : Z)
    (amps : list Q) (thermalization : Z) (qubits : list Qubit.t) :
  (0 < n_avg)%Z → amps ≠ [] →
  freqs (execute demod config (power_rabi qubits operation n_avg amps thermalization))
  = fold_left (fun m qubit => retuned qubit m) qubits config.
Proof.
  intros Hn Hamps. unfold execute. simpl body.
  induction qubits as [|q qs IH] using rev_ind; [reflexivity|].
  rewrite imap_app, concat_app, exec_block_app, fold_left_app.
  change (concat (imap (fun j => qubit_block operation n_avg amps thermalization
                                   (length qs + j)) [q]))
    with (qubit_block operation n_avg amps thermalization (length qs + 0) q ++ []).
  rewrite app_nil_r, qubit_block_freqs, IH by done. reflexivity.
Qed.

Lemma fold_retuned_other (qubits : list Qubit.t) (config : gmap string Z) (e : string) :
  e ∉ flat_map element_names qubits →
  fold_left (fun m qubit => retuned qubit m) qubits config !! e = config !! e.
Proof.
  induction qubits as [|q qs IH] using rev_ind; [reflexivity|].
  rewrite flat_map_app, fold_left_app. simpl.
  intros Hnot. apply not_elem_of_app in Hnot as [Hqs Hq].
  apply not_elem_of_cons in Hq as [Hxy Hq].
  apply not_elem_of_cons in Hq as [Hres _].
  rewrite retuned_lookup, !decide_False by done. by apply IH.
Qed.

(** X29.  A run with [n_avg > 0] and a non-empty sweep leaves the XY element
    of every qubit at its intermediate frequency less the anharmonicity, the
    frequency of the first-to-second-excited-state transition, and its
    resonator at its intermediate frequency plus the shift (the element names
    being all different); it does not set the XY frequency back.  No other
    element's frequency is touched. *)
Theorem run_leaves_xy_at_ef_frequency (config : gmap string Z) (operation : string)
    (n_avg : Z) (amps : list Q) (thermalization : Z) (qubits : list Qubit.t) :
  (0 < n_avg)%Z → amps ≠ [] →
  NoDup (flat_map element_names qubits) →
  let st := execute demod config
              (power_rabi qubits operation n_avg amps thermalization) in
  (∀ qubit, qubit ∈ qubits →
     freqs st !! Channel.name (Qubit.xy qubit)
     = Some (Channel.intermediate_frequency (Qubit.xy qubit)
             - Qubit.anharmonicity qubit)%Z
     ∧ freqs st !! Channel.name (Qubit.resonator qubit)
       = Some (Channel.intermediate_frequency (Qubit.resonator qubit)
               + default 0%Z (Qubit.GEF_frequency_shift qubit))%Z)
  ∧ (∀ e, e ∉ flat_map element_names qubits → freqs st !! e = config !! e).
Proof.
  intros Hn Hamps Hnd. cbv zeta. rewrite program_freqs by done.
  split; [|intros e; apply fold_retuned_other].
  induction qubits as [|q qs IH] using rev_ind;
    [intros qubit Hq; by apply elem_of_nil in Hq|].
  rewrite flat_map_app in Hnd. simpl in Hnd.
  apply NoDup_app in Hnd as (Hqs & Hdisj & Hq).
  intros qubit Hin. rewrite fold_left_app. simpl. rewrite !retuned_lookup.
  apply elem_of_app in Hin as [Hin|Hin].
  - assert (Hxy : Channel.name (Qubit.xy qubit) ∈ flat_map element_names qs).
    { apply list_elem_of_In, in_flat_map. exists qubit.
      split; [by apply list_elem_of_In | by left]. }
    assert (Hres : Channel.name (Qubit.resonator qubit) ∈ flat_map element_names qs).
    { apply list_elem_of_In, in_flat_map. exists qubit.
      split; [by apply list_elem_of_In | right; by left]. }
    pose proof (Hdisj _ Hxy) as Hxy'. pose proof (Hdisj _ Hres) as Hres'.
    unfold element_names in Hxy', Hres'.
    rewrite !(decide_False (P := Channel.name (Qubit.xy qubit) = _))
      by (intros E; apply Hxy'; rewrite E; apply list_elem_of_In; simpl; tauto).
    rewrite !(decide_False (P := Channel.name (Qubit.resonator qubit) = _))
      by (intros E; apply Hres'; rewrite E; apply list_elem_of_In; simpl; tauto).
    by apply IH.
  - apply list_elem_of_singleton in Hin as ->.
    unfold element_names in Hq. apply NoDup_cons in Hq as [Hne _].
    rewrite decide_True by done.
    rewrite (decide_False (P := Channel.name (Qubit.resonator q) = Channel.name (Qubit.xy q)))
      by (intros E; apply Hne; rewrite E; by left).
    by rewrite decide_True.
Qed.

End Frequencies.

Section FurtherWitnesses.
Import Py Analysis Qua PowerRabiEF.

Lemma fit_raw_data_adds_bloch_variables_witness :
  ∃ fit results,
    fit_raw_data ds_states tt = Some (fit, results)
    ∧ is_Some (dict_get "bloch_control" (data_vars fit)).
Proof.
  eexists _, _. split; [reflexivity|].
  destruct (fit_raw_data_adds_bloch_variables ds_states _ tt _ eq_refl) as [Hnew _].
  apply (Hnew "state_control" [0; 1; 1 # 2]%Q); [by left | reflexivity].
Defined.

Lemma fit_raw_data_without_state_variables_witness :
  fit_raw_data ds_flat tt = _extract_relevant_fit_parameters ds_flat tt.
Proof.
  apply fit_raw_data_without_state_variables.
  intros col x [[= <- <-]|[[= <- <-]|[]]]; reflexivity.
Defined.

Lemma fit_raw_data_keeps_names_and_coords_witness :
  ∃ fit results,
    fit_raw_data ds_states tt = Some (fit, results)
    ∧ ["state_control"; "I_target"] `prefix_of` List.map fst (data_vars fit).
Proof.
  eexists _, _. split; [reflexivity|].
  by destruct (fit_raw_data_keeps_names_and_coords ds_states _ tt _ eq_refl) as [H _].
Defined.

Lemma fit_raw_data_keeps_state_variables_witness :
  ∃ fit results,
    fit_raw_data ds_states tt = Some (fit, results)
    ∧ dict_get "state_control" (data_vars fit)
      = dict_get "state_control" (data_vars ds_states).
Proof.
  eexists _, _. split; [reflexivity|].
  apply (fit_raw_data_keeps_state_variables ds_states _ tt _ "state_control" eq_refl).
  reflexivity.
Defined.

Lemma bloch_variables_within_unit_interval_witness :
  (-1 <= -2 * (1 # 2) + 1 ∧ -2 * (1 # 2) + 1 <= 1)%Q.
Proof.
  apply (bloch_variables_within_unit_interval ds_states _ tt _ "state_control"
           [0; 1; 1 # 2]%Q
           [(-2 * 0 + 1)%Q; (-2 * 1 + 1)%Q; (-2 * (1 # 2) + 1)%Q]
           (-2 * (1 # 2) + 1)%Q eq_refl).
  - intros col x y [[= <- <-]|[[= <- <-]|[]]] Hc; [|discriminate].
    intros [<-|[<-|[<-|[]]]]; split; discriminate.
  - by left.
  - reflexivity.
  - reflexivity.
  - simpl. tauto.
Defined.

Lemma fit_results_keys_are_labels_witness :
  ∃ fit results qps,
    fit_raw_data ds_states tt = Some (fit, results)
    ∧ dict_get "qubit_pair" (coords ds_states) = Some qps
    ∧ dom results = list_to_set qps.
Proof.
  eexists _, _.
  destruct (fit_results_keys_are_labels ds_states _ tt _ eq_refl) as (qps & H1 & H2).
  exists qps. split; [reflexivity|]. split; [exact H1 | exact H2].
Defined.

Lemma init_qubits_sets_missing_shift_only_witness :
  QuAM.qubits (init_qubits ["q1"] machine_example) !! "q1"
  = Some {| Qubit.xy := Qubit.xy q1_example;
            Qubit.resonator := Qubit.resonator q1_example;
            Qubit.anharmonicity := Qubit.anharmonicity q1_example;
            Qubit.GEF_frequency_shift :=
              Some (default 0%Z (Qubit.GEF_frequency_shift q1_example)) |}.
Proof.
  destruct (init_qubits_sets_missing_shift_only ["q1"] machine_example "q1"
              q1_example eq_refl) as [H _].
  apply H. by left.
Defined.



Lemma qubit_stream_holds_own_shots_witness :
  streams (execute demod_example ∅
             (power_rabi [q1_example] "x180" 2 [1 # 2; 1%Q] 100))
    (data_stream true 0)
  = List.map (fun k => part true (demod_example k)) (seq 0 4).
Proof.
  apply (qubit_stream_holds_own_shots true demod_example ∅ "x180" 2 [1 # 2; 1%Q]
           100 [q1_example] 0).
  simpl. lia.
Defined.

Lemma no_repetition_no_data_witness :
  trace (execute demod_example ∅ (power_rabi [q1_example] "x180" 0 [1 # 2; 1%Q] 100))
  = [EvAlign].
Proof.
  destruct (no_repetition_no_data demod_example ∅ [q1_example] "x180" 0
              [1 # 2; 1%Q] 100) as [H _]; [lia | exact H].
Defined.

Lemma factor_is_half_turn_witness :
  (2 * PI * (2 / 5) * (5 / 4) + adjust_phase 0 = PI)%R.
Proof. exact (factor_is_half_turn (2 / 5) 0 (5 / 4) factor_example). Defined.

Lemma factor_between_quarter_periods_witness :
  ∃ x, factor (2 / 5) 0 = Some x
       ∧ (1 / (4 * (2 / 5)) <= x <= 3 / (4 * (2 / 5)))%R.
Proof.
  apply factor_between_quarter_periods; [lra|].
  pose proof PI_RGT_0. split; lra.
Defined.

Lemma zero_frequency_stores_bound_witness :
  analyse_qubit "x180" fit_zero_frequency machine_example ∅ "q1"
  = Some (<[ "q1" := (3 / 10)%R ]> ∅).
Proof.
  exact (zero_frequency_stores_bound "x180" fit_zero_frequency machine_example ∅
           "q1" q1_example x180_example eq_refl eq_refl eq_refl).
Defined.

Lemma recorded_amplitudes_are_bounded_witness :
  ∃ fr v,
    data_analysis "x180" fit_example ["q1"] machine_example = Some fr
    ∧ fr !! "q1" = Some v
    ∧ (- (3 / 10) < v <= 3 / 10)%R.
Proof.
  destruct (data_analysis_spec "x180" fit_example machine_example ["q1"])
    as (fr & Hfr & Hlook).
  { intros q Hq. apply list_elem_of_singleton in Hq. subst q. by eexists. }
  specialize (Hlook "q1"). rewrite decide_True in Hlook by (by left).
  exists fr. eexists. split; [exact Hfr|]. split; [exact Hlook|].
  by destruct (recorded_amplitudes_are_bounded _ _ _ _ _ _ _ Hfr Hlook).
Defined.

Lemma example_update_runs :
  ∃ m', update_state "x180" {[ "q1" := (1 / 8)%R ]} ["q1"] machine_example = Some m'.
Proof.
  destruct (update_state_spec "x180" {[ "q1" := (1 / 8)%R ]} ["q1"] machine_example)
    as (m' & Hm' & _); [|by exists m'].
  intros q Hq. apply list_elem_of_singleton in Hq. subst q. by eexists.
Qed.

Lemma update_state_changes_only_ef_operation_witness :
  ∃ m', update_state "x180" {[ "q1" := (1 / 8)%R ]} ["q1"] machine_example = Some m'
        ∧ QuAM.thermalization_time m' = 100%Z.
Proof.
  destruct example_update_runs as [m' Hm']. exists m'. split; [exact Hm'|].
  by destruct (update_state_changes_only_ef_operation _ _ _ _ _ Hm') as (_ & -> & _).
Defined.

Lemma update_state_idempotent_witness :
  ∃ m', update_state "x180" {[ "q1" := (1 / 8)%R ]} ["q1"] machine_example = Some m'
        ∧ update_state "x180" {[ "q1" := (1 / 8)%R ]} ["q1"] m' = Some m'.
Proof.
  destruct example_update_runs as [m' Hm']. exists m'. split; [exact Hm'|].
  exact (update_state_idempotent _ _ _ _ _ Hm').
Defined.

Lemma machine_square_not_calibratable :
  ¬ calibratable "x180" {[ "x180" := square_x180 ]}.
Proof.
  intros (p & Hp & Hdrag).
  assert (p = square_x180) by (rewrite lookup_singleton_eq in Hp; congruence).
  subst p. destruct (Hdrag eq_refl) as [[al Hal] _]. discriminate.
Qed.

Lemma script_fails_on_uncalibratable_qubit_witness :
  script (fun t => t) coarse_parameters machine_square fit_example = None.
Proof.
  apply (script_fails_on_uncalibratable_qubit (fun t => t) coarse_parameters
           machine_square fit_example ["q1"] "q1" {[ "x180" := square_x180 ]}).
  - reflexivity.
  - reflexivity.
  - by left.
  - reflexivity.
  - exact machine_square_not_calibratable.
Defined.

Lemma script_rejects_bad_parameters_witness :
  script (fun t => t) unknown_qubit_parameters machine_example fit_example = None.
Proof.
  apply script_rejects_bad_parameters. left. exists "q7".
  split; [by left | reflexivity].
Defined.

Lemma script_rejects_empty_sweep_witness :
  script (fun t => t) empty_sweep_parameters machine_example fit_example = None.
Proof.
  apply (script_rejects_empty_sweep (fun t => t) empty_sweep_parameters
           machine_example fit_example ["q1"]).
  - reflexivity.
  - discriminate.
  - vm_compute. reflexivity.
Defined.

Lemma script_needs_operation_witness :
  script (fun t => t) unknown_operation_parameters machine_example fit_example = None.
Proof.
  apply (script_needs_operation (fun t => t) unknown_operation_parameters
           machine_example fit_example ["q1"] "q1" {[ "x180" := x180_example ]}).
  - reflexivity.
  - by left.
  - reflexivity.
  - reflexivity.
Defined.

Lemma example_simulation_runs :
  ∃ run, script (fun t => t) simulation_parameters machine_example fit_example
         = Some run.
Proof. eexists. reflexivity. Qed.

Lemma simulation_updates_nothing_witness :
  ∃ run,
    script (fun t => t) simulation_parameters machine_example fit_example = Some run
    ∧ results_fit (node run) = None.
Proof.
  destruct example_simulation_runs as [run Hrun]. exists run. split; [exact Hrun|].
  by destruct (simulation_updates_nothing _ _ _ _ _ Hrun eq_refl) as [H _].
Defined.

Lemma run_leaves_xy_at_ef_frequency_witness :
  freqs (execute demod_example ∅ (power_rabi [q1_example] "x180" 2 [1 # 2; 1%Q] 100))
    !! "q1.xy" = Some (-250000000)%Z.
Proof.
  destruct (run_leaves_xy_at_ef_frequency demod_example ∅ "x180" 2 [1 # 2; 1%Q] 100
              [q1_example]) as [H _].
  - lia.
  - discriminate.
  - simpl. apply NoDup_cons. split; [|apply NoDup_singleton].
    intros H. apply list_elem_of_singleton in H. discriminate.
  - destruct (H q1_example) as [Hxy _]; [by left | exact Hxy].
Defined.

End FurtherWitnesses.
